(** * Tessie integration: dot-path access over decoded JSON, sensor and switch

    A shallow embedding of [homeassistant/components/tessie/sensor.py] and
    [homeassistant/components/tessie/switch.py].

    The coordinator's snapshot is the decoded JSON answer of the Tessie API:
    a list of records, each a tree of dictionaries, lists and scalars.  A
    decoded JSON document has no sharing between its nodes, so an in-place
    update of a dictionary is modelled by rebuilding the path from the
    root of the record down to it, and the snapshot after an operation is
    returned next to the operation's outcome. *)

From stdpp Require Import gmap strings list fin_maps.
From Stdlib Require Import ZArith Ascii String.

Set Warnings "-register-all".
Set Default Proof Using "Type".
Open Scope string_scope.
Open Scope list_scope.

(** ** Python values, exceptions and the primitive operations used *)

Module Py.

(** The values [json.loads] produces.  A float leaf is never computed
    with here, only stored, returned and compared with strings, so it is
    carried as its 64-bit pattern. *)
Inductive value : Type :=
  | VNone
  | VBool (b : bool)
  | VInt (z : Z)
  | VFloat (bits : Z)
  | VStr (s : string)
  | VList (l : list value)
  | VDict (m : gmap string value).

(** The exceptions the two files can raise by themselves, and any other
    exception class (by name) that an awaited remote call may raise. *)
Inductive exn : Type :=
  | AttributeError
  | KeyError
  | TypeError
  | IndexError
  | OtherError (name : string).

Inductive result (A : Type) : Type :=
  | Ok (a : A)
  | Raise (e : exn).
Arguments Ok {A} a.
Arguments Raise {A} e.

#[global] Instance result_ret : MRet result := fun _ a => Ok a.
#[global] Instance result_bind : MBind result := fun _ _ f r =>
  match r with
  | Ok a => f a
  | Raise e => Raise e
  end.

Definition is_none (v : value) : bool :=
  match v with
  | VNone => true
  | _ => false
  end.

Definition is_dict (v : value) : bool :=
  match v with
  | VDict _ => true
  | _ => false
  end.

(** [str | None] as a value. *)
Definition str_or_none (o : option string) : value :=
  match o with
  | Some s => VStr s
  | None => VNone
  end.

(** [v == s] for a [str] operand [s]: only an equal string compares
    equal. *)
Definition eq_str (v : value) (s : string) : bool :=
  match v with
  | VStr t => bool_decide (t = s)
  | _ => false
  end.

(** [v == o] for a [str | None] operand [o]. *)
Definition eq_str_or_none (v : value) (o : option string) : bool :=
  match o with
  | Some s => eq_str v s
  | None => is_none v
  end.

(** [obj.get(key)]: only a dictionary has the method; a missing key
    gives [None]. *)
Definition get (obj : value) (key : string) : result value :=
  match obj with
  | VDict m => Ok (default VNone (m !! key))
  | _ => Raise AttributeError
  end.

(** [obj[key]] for a [str] key: [KeyError] on a dictionary without the
    key, [TypeError] on every other value. *)
Definition getitem (obj : value) (key : string) : result value :=
  match obj with
  | VDict m =>
      match m !! key with
      | Some v => Ok v
      | None => Raise KeyError
      end
  | _ => Raise TypeError
  end.

(** [obj[key] = v] for a [str] key; the result is [obj] after the
    assignment. *)
Definition setitem (obj : value) (key : string) (v : value) : result value :=
  match obj with
  | VDict m => Ok (VDict (<[key := v]> m))
  | _ => Raise TypeError
  end.

(** [obj.setdefault(key, {})]: the value stored under [key], the fresh
    empty dictionary when there is none.  The insertion of that
    dictionary into [obj] is done by the caller, which stores what the
    returned dictionary has become. *)
Definition setdefault_empty (obj : value) (key : string) : result value :=
  match obj with
  | VDict m => Ok (default (VDict ∅) (m !! key))
  | _ => Raise AttributeError
  end.

(** [s.split(sep)] for a one-character separator: never empty, one more
    piece than there are separators. *)
Fixpoint split (sep : ascii) (s : string) : list string :=
  match s with
  | EmptyString => [EmptyString]
  | String c rest =>
      if bool_decide (c = sep) then EmptyString :: split sep rest
      else
        match split sep rest with
        | piece :: pieces => String c piece :: pieces
        | [] => [String c EmptyString]
        end
  end.

Definition dot : ascii := "."%char.

End Py.

Import Py.

(** Modelled from the spec: the update coordinator, declared in the
    package's [__init__.py], of which both files read
    [coordinator.data["results"]], "a list of Records" that the
    coordinator owns and that the entities only hold a reference to. *)
Record TessieDataUpdateCoordinator : Type := {
  data_results : list value
}.

(** ** sensor.py *)

Module Sensor.

(** The loop of [traverse_nested_dict] over the remaining keys. *)
Fixpoint traverse_keys (value : value) (keys : list string) : result Py.value :=
  match keys with
  | [] => Ok value
  | key :: keys =>
      value ← get value key;
      if is_none value then Ok VNone else traverse_keys value keys
  end.

Definition traverse_nested_dict (data_dict : value) (key_path : string)
  : result value :=
  let keys := split dot key_path in
  traverse_keys data_dict keys.

(** The fields of a [TessieCarSensor] the value query reads;
    [description_key] is [entity_description.key].  What [self.coordinator]
    refers to is handed to the methods next to [self]. *)
Record TessieCarSensor : Type := {
  vin : string;
  description_key : string
}.

(** The loop of [getCarByVin] over the remaining cars. *)
Fixpoint find_car (cars : list value) (vin : string) : result value :=
  match cars with
  | [] => Ok VNone
  | car :: cars =>
      id ← getitem car "vin";
      if eq_str id vin then Ok car else find_car cars vin
  end.

Definition getCarByVin (coordinator : TessieDataUpdateCoordinator)
    (vin : string) : result value :=
  find_car (data_results coordinator) vin.

Definition native_value (self : TessieCarSensor)
    (coordinator : TessieDataUpdateCoordinator) : result value :=
  car ← getCarByVin coordinator (vin self);
  traverse_nested_dict car (description_key self).

End Sensor.

(** ** switch.py *)

Module Switch.

Fixpoint traverse_keys (value : value) (keys : list string) : result Py.value :=
  match keys with
  | [] => Ok value
  | key :: keys =>
      value ← get value key;
      if is_none value then Ok VNone else traverse_keys value keys
  end.

Definition traverse_nested_dict (data_dict : value) (key_path : string)
  : result value :=
  let keys := split dot key_path in
  traverse_keys data_dict keys.

(** The loop of [set_nested_dict_value] over [keys[:-1]], followed by the
    assignment to [keys[-1]].  The result is the dictionary the function
    was given, as the function leaves it: what [setdefault] returned is
    stored back under [key] once the rest of the path has been set
    inside it. *)
Fixpoint set_along (data_dict : value) (init : list string) (final : string)
    (v : value) : result value :=
  match init with
  | [] => setitem data_dict final v
  | key :: init =>
      child ← setdefault_empty data_dict key;
      child ← set_along child init final v;
      setitem data_dict key child
  end.

Definition set_nested_dict_value (data_dict : value) (key_path : string)
    (v : value) : result value :=
  let keys := split dot key_path in
  match last keys with
  | Some final => set_along data_dict (removelast keys) final v
  | None => Raise IndexError
  end.

(** An [aiohttp.ClientSession], an opaque handle here. *)
Definition ClientSession : Type := nat.

(** A remote action such as [tessie_api.start_charging]: a name standing
    for the function object, and what awaiting it with the given session,
    identifier and credential comes to: a return or an exception.  Each
    transition awaits one call, so any outcome of it is some
    [func_outcome]. *)
Record RemoteFunc : Type := {
  func_name : string;
  func_outcome : ClientSession → string → string → result ()
}.

Record TessieSwitchEntityDescription : Type := {
  key : string;
  enabled_func : option RemoteFunc;
  enabled_value : option string;
  disabled_func : option RemoteFunc;
  disabled_value : option string
}.

Record TessieSwitch : Type := {
  _description : TessieSwitchEntityDescription;
  _session : ClientSession;
  _apiKey : string;
  _vin : string
}.

(** What the host can observe of a transition besides the snapshot. *)
Inductive event : Type :=
  | Awaited (func : string) (session : ClientSession) (vin apiKey : string)
  | WroteHaState.

Record Hass : Type := {
  coordinator : TessieDataUpdateCoordinator;
  events : list event
}.

(** A coroutine of the entity: it runs on the host's state and leaves it
    as it is when an exception escapes. *)
Definition Task (A : Type) : Type := Hass → result A * Hass.

#[global] Instance task_ret : MRet Task := fun _ a hass => (Ok a, hass).
#[global] Instance task_bind : MBind Task := fun _ _ f task hass =>
  match task hass with
  | (Ok a, hass) => f a hass
  | (Raise e, hass) => (Raise e, hass)
  end.

Definition await (func : RemoteFunc) (session : ClientSession)
    (vin apiKey : string) : Task () := fun hass =>
  (func_outcome func session vin apiKey,
   {| coordinator := coordinator hass;
      events := events hass ++ [Awaited (func_name func) session vin apiKey] |}).

Definition async_write_ha_state : Task () := fun hass =>
  (Ok (),
   {| coordinator := coordinator hass;
      events := events hass ++ [WroteHaState] |}).

(** Run a loop over [coordinator.data["results"]] that updates records
    in place. *)
Definition on_results (loop : list value → result (list value)) : Task () :=
  fun hass =>
    match loop (data_results (coordinator hass)) with
    | Ok results =>
        (Ok (), {| coordinator := {| data_results := results |};
                   events := events hass |})
    | Raise e => (Raise e, hass)
    end.

Fixpoint find_car (cars : list value) (vin : string) : result value :=
  match cars with
  | [] => Ok VNone
  | car :: cars =>
      id ← getitem car "vin";
      if eq_str id vin then Ok car else find_car cars vin
  end.

Definition getCarByVin (coordinator : TessieDataUpdateCoordinator)
    (vin : string) : result value :=
  find_car (data_results coordinator) vin.

Definition is_on (self : TessieSwitch) (hass : Hass) : result bool :=
  car ← getCarByVin (coordinator hass) (_vin self);
  value ← traverse_nested_dict car (key (_description self));
  Ok (eq_str_or_none value (enabled_value (_description self))).

(** The loop of both transitions over the vehicles: the path is set in
    the first vehicle whose ["vin"] is the switch's, and the loop is
    left. *)
Fixpoint set_in_vehicles (vehicles : list value) (vin key_path : string)
    (v : value) : result (list value) :=
  match vehicles with
  | [] => Ok []
  | vehicle :: vehicles =>
      id ← getitem vehicle "vin";
      if eq_str id vin then
        vehicle ← set_nested_dict_value vehicle key_path v;
        Ok (vehicle :: vehicles)
      else
        vehicles ← set_in_vehicles vehicles vin key_path v;
        Ok (vehicle :: vehicles)
  end.

Definition async_turn_on (self : TessieSwitch) : Task () :=
  match enabled_func (_description self) with
  | None => mret ()
  | Some enabled_func =>
      await enabled_func (_session self) (_vin self) (_apiKey self);;
      on_results (fun vehicles =>
        set_in_vehicles vehicles (_vin self) (key (_description self))
          (str_or_none (enabled_value (_description self))));;
      async_write_ha_state
  end.

Definition async_turn_off (self : TessieSwitch) : Task () :=
  match disabled_func (_description self) with
  | None => mret ()
  | Some disabled_func =>
      await disabled_func (_session self) (_vin self) (_apiKey self);;
      on_results (fun vehicles =>
        set_in_vehicles vehicles (_vin self) (key (_description self))
          (str_or_none (disabled_value (_description self))));;
      async_write_ha_state
  end.

(** The one description of [SENSOR_INFO_TYPES_TESLA], over the two
    functions imported from [tessie_api]. *)
Definition charging_switch (start_charging stop_charging : RemoteFunc)
  : TessieSwitchEntityDescription :=
  {| key := "last_state.charge_state.charging_state";
     enabled_func := Some start_charging;
     enabled_value := Some "Charging";
     disabled_func := Some stop_charging;
     disabled_value := Some "Stopped" |}.

End Switch.

(** ** How a path lies in a value

    The relations below follow the keys of a path through the values
    stored in a record; they say where a path leads, and are what the
    statements about the two path functions are phrased with. *)

(** Every key but the last leads to a stored dictionary, and the last key
    is present in the dictionary it is looked up in, with [v] stored. *)
Inductive resolves : value → list string → value → Prop :=
  | resolves_last m key v :
      m !! key = Some v →
      resolves (VDict m) [key] v
  | resolves_step m key child keys v :
      m !! key = Some child →
      resolves child keys v →
      resolves (VDict m) (key :: keys) v.

(** Some key is missing from the dictionary it is looked up in. *)
Inductive missing_segment : value → list string → Prop :=
  | missing_here m key keys :
      m !! key = None →
      missing_segment (VDict m) (key :: keys)
  | missing_below m key child keys :
      m !! key = Some child →
      missing_segment child keys →
      missing_segment (VDict m) (key :: keys).

(** Following the stored values, a value with [P] is reached while keys
    are still to be looked up, the last one among them. *)
Inductive reaches (P : value → Prop) : value → list string → Prop :=
  | reaches_here v key keys :
      P v →
      reaches P v (key :: keys)
  | reaches_below m key child keys :
      m !! key = Some child →
      reaches P child keys →
      reaches P (VDict m) (key :: keys).

Definition not_map_shaped (v : value) : Prop := is_dict v = false.

Definition non_null_leaf (v : value) : Prop := is_dict v = false ∧ v ≠ VNone.

(** The path can be set: every key but the last is either missing, from
    where on all dictionaries are created, or leads to a stored
    dictionary. *)
Inductive settable : value → list string → Prop :=
  | settable_last m key :
      settable (VDict m) [key]
  | settable_fresh m key keys :
      m !! key = None →
      settable (VDict m) (key :: keys)
  | settable_below m key child keys :
      m !! key = Some child →
      settable child keys →
      settable (VDict m) (key :: keys).

(** The dictionaries [set_nested_dict_value] creates below a missing key:
    one per remaining key, each holding the next. *)
Fixpoint nest (init : list string) (final : string) (v : value) : value :=
  match init with
  | [] => VDict {[ final := v ]}
  | key :: init => VDict {[ key := nest init final v ]}
  end.

(** The record's identifier field. *)
Definition has_vin (car : value) (vin : string) : Prop :=
  ∃ m, car = VDict m ∧ m !! "vin" = Some (VStr vin).

Definition carries_vin (car : value) : Prop :=
  ∃ m id, car = VDict m ∧ m !! "vin" = Some id.

Definition has_other_vin (car : value) (vin : string) : Prop :=
  ∃ m id, car = VDict m ∧ m !! "vin" = Some id ∧ id ≠ VStr vin.

(** ** What the transitions come to, and sample data

    The record, the snapshots and the switch of the scenarios. *)

(** What a transition that awaited [func] with success comes to, when
    [car] is the first record with the switch's identifier: the mutator is
    applied to it, and the state is written once it has returned. *)
Definition transition_outcome (self : Switch.TessieSwitch) (hass : Switch.Hass)
    (func : Switch.RemoteFunc) (v : value) (pre : list value) (car : value)
    (post : list value) : result () * Switch.Hass :=
  let awaited :=
    Switch.Awaited (Switch.func_name func) (Switch._session self)
      (Switch._vin self) (Switch._apiKey self) in
  match
    Switch.set_nested_dict_value car
      (Switch.key (Switch._description self)) v
  with
  | Ok car' =>
      (Ok (),
       {| Switch.coordinator := {| data_results := pre ++ car' :: post |};
          Switch.events :=
            Switch.events hass ++ [awaited; Switch.WroteHaState] |})
  | Raise e =>
      (Raise e,
       {| Switch.coordinator := Switch.coordinator hass;
          Switch.events := Switch.events hass ++ [awaited] |})
  end.

(** What a transition whose remote call raised [e] comes to. *)
Definition failure_outcome (self : Switch.TessieSwitch) (hass : Switch.Hass)
    (func : Switch.RemoteFunc) (e : exn) : result () * Switch.Hass :=
  (Raise e,
   {| Switch.coordinator := Switch.coordinator hass;
      Switch.events :=
        Switch.events hass ++
        [Switch.Awaited (Switch.func_name func) (Switch._session self)
           (Switch._vin self) (Switch._apiKey self)] |}).

Definition start_charging : Switch.RemoteFunc :=
  {| Switch.func_name := "start_charging";
     Switch.func_outcome := fun _ _ _ => Ok () |}.

Definition stop_charging : Switch.RemoteFunc :=
  {| Switch.func_name := "stop_charging";
     Switch.func_outcome := fun _ _ _ => Ok () |}.

Definition failing (name : string) : Switch.RemoteFunc :=
  {| Switch.func_name := name;
     Switch.func_outcome := fun _ _ _ => Raise (OtherError "ClientResponseError") |}.

Definition charging_switch_of (vin : string) (on off : Switch.RemoteFunc)
  : Switch.TessieSwitch :=
  {| Switch._description := Switch.charging_switch on off;
     Switch._session := 1;
     Switch._apiKey := "token";
     Switch._vin := vin |}.

Definition hass_with (cars : list value) : Switch.Hass :=
  {| Switch.coordinator := {| data_results := cars |};
     Switch.events := [] |}.

Definition scenario_fields : gmap string value :=
  {[ "vin" := VStr "ABC";
     "last_state" :=
       VDict {[ "charge_state" :=
                  VDict {[ "charging_state" := VStr "Stopped";
                           "scheduled_charging_start_time" := VNone ]} ]} ]}.

Definition scenario_record : value := VDict scenario_fields.

Definition other_car_fields : gmap string value :=
  {[ "vin" := VStr "DEF";
     "last_state" := VDict {[ "display_name" := VStr "Second" ]} ]}.

Definition third_car_fields : gmap string value :=
  {[ "vin" := VStr "GHI";
     "last_state" := VDict {[ "display_name" := VStr "Third" ]} ]}.

Definition duplicate_fields : gmap string value :=
  {[ "vin" := VStr "ABC";
     "last_state" := VDict {[ "display_name" := VStr "Duplicate" ]} ]}.

(** A snapshot of three records, and one where the identifier of the
    second record comes back in the third. *)
Definition three_cars : list value :=
  [VDict other_car_fields; VDict scenario_fields; VDict third_car_fields].

Definition cars_with_duplicate : list value :=
  [VDict other_car_fields; VDict scenario_fields; VDict duplicate_fields].

(** ** Entity set-up and identity: the rest of the two files *)

Module SensorSetup.

(** The fields of a [SensorEntityDescription] the file gives. *)
Record SensorEntityDescription : Type := {
  translation_key : string;
  key : string
}.

Definition SENSOR_INFO_TYPES_TESLA : list SensorEntityDescription :=
  [ {| translation_key := "display_name";
       key := "last_state.display_name" |} ].

(** A [TessieCarSensor(...)] call of [async_setup_entry], by what it is
    given of the car; the config entry and the coordinator are the same
    in every call. *)
Record TessieCarSensor : Type := {
  name : value;
  model : value;
  vin : value;
  entity_description : SensorEntityDescription
}.

(** The element of the comprehension; the arguments are evaluated from
    left to right. *)
Definition create (description : SensorEntityDescription) (car : value)
  : result TessieCarSensor :=
  last_state ← getitem car "last_state";
  name ← getitem last_state "display_name";
  last_state ← getitem car "last_state";
  vehicle_config ← getitem last_state "vehicle_config";
  model ← getitem vehicle_config "car_type";
  vin ← getitem car "vin";
  Ok {| name := name; model := model; vin := vin;
        entity_description := description |}.

(** [for car in cars], the inner loop. *)
Fixpoint for_cars (description : SensorEntityDescription) (cars : list value)
  : result (list TessieCarSensor) :=
  match cars with
  | [] => Ok []
  | car :: cars =>
      entity ← create description car;
      entities ← for_cars description cars;
      Ok (entity :: entities)
  end.

(** [for description in SENSOR_INFO_TYPES_TESLA], the outer loop. *)
Fixpoint for_descriptions (descriptions : list SensorEntityDescription)
    (cars : list value) : result (list TessieCarSensor) :=
  match descriptions with
  | [] => Ok []
  | description :: descriptions =>
      entities ← for_cars description cars;
      others ← for_descriptions descriptions cars;
      Ok (entities ++ others)
  end.

(** The list handed to [async_add_entities]. *)
Definition async_setup_entry (coordinator : TessieDataUpdateCoordinator)
  : result (list TessieCarSensor) :=
  let cars := data_results coordinator in
  for_descriptions SENSOR_INFO_TYPES_TESLA cars.

(** The entity as its value query reads it, for an identifier that is a
    string. *)
Definition queried (self : TessieCarSensor) (vin : string)
  : Sensor.TessieCarSensor :=
  {| Sensor.vin := vin;
     Sensor.description_key := key (entity_description self) |}.

End SensorSetup.

Module SwitchSetup.

(** What [TessieSwitch.__init__] stores; the coordinator goes to the base
    class. *)
Record TessieSwitch : Type := {
  _description : Switch.TessieSwitchEntityDescription;
  _session : Switch.ClientSession;
  _apiKey : string;
  _name : value;
  _model : value;
  _vin : value;
  _is_charging : bool
}.

Definition __init__ (session : Switch.ClientSession)
    (description : Switch.TessieSwitchEntityDescription) (apiKey : string)
    (name model vin : value) : TessieSwitch :=
  {| _description := description;
     _session := session;
     _apiKey := apiKey;
     _name := name;
     _model := model;
     _vin := vin;
     _is_charging := false |}.

Definition create (session : Switch.ClientSession) (apiKey : string)
    (description : Switch.TessieSwitchEntityDescription) (car : value)
  : result TessieSwitch :=
  last_state ← getitem car "last_state";
  name ← getitem last_state "display_name";
  last_state ← getitem car "last_state";
  vehicle_config ← getitem last_state "vehicle_config";
  model ← getitem vehicle_config "car_type";
  vin ← getitem car "vin";
  Ok (__init__ session description apiKey name model vin).

Fixpoint for_cars (session : Switch.ClientSession) (apiKey : string)
    (description : Switch.TessieSwitchEntityDescription) (cars : list value)
  : result (list TessieSwitch) :=
  match cars with
  | [] => Ok []
  | car :: cars =>
      switch ← create session apiKey description car;
      switches ← for_cars session apiKey description cars;
      Ok (switch :: switches)
  end.

Fixpoint for_descriptions (session : Switch.ClientSession) (apiKey : string)
    (descriptions : list Switch.TessieSwitchEntityDescription)
    (cars : list value) : result (list TessieSwitch) :=
  match descriptions with
  | [] => Ok []
  | description :: descriptions =>
      switches ← for_cars session apiKey description cars;
      others ← for_descriptions session apiKey descriptions cars;
      Ok (switches ++ others)
  end.

(** [SENSOR_INFO_TYPES_TESLA] of [switch.py], over the two functions
    imported from [tessie_api]. *)
Definition SENSOR_INFO_TYPES_TESLA (start_charging stop_charging : Switch.RemoteFunc)
  : list Switch.TessieSwitchEntityDescription :=
  [Switch.charging_switch start_charging stop_charging].

(** The list handed to [async_add_entities]; [apiKey] is
    [config_entry.data[ACCESS_TOKEN]]. *)
Definition async_setup_entry (start_charging stop_charging : Switch.RemoteFunc)
    (session : Switch.ClientSession) (apiKey : string)
    (coordinator : TessieDataUpdateCoordinator) : result (list TessieSwitch) :=
  let cars := data_results coordinator in
  for_descriptions session apiKey
    (SENSOR_INFO_TYPES_TESLA start_charging stop_charging) cars.

Definition unique_id (self : TessieSwitch) : string :=
  Switch.key (_description self) +:+ ".switch".

(** The switch as its state query and transitions read it, for an
    identifier that is a string. *)
Definition operated (self : TessieSwitch) (vin : string) : Switch.TessieSwitch :=
  {| Switch._description := _description self;
     Switch._session := _session self;
     Switch._apiKey := _apiKey self;
     Switch._vin := vin |}.

End SwitchSetup.

(** ** More ways a path lies in a value *)

(** Following the stored values, a value that is not a dictionary is
    reached with [rest] still to be looked up. *)
Inductive blocked : value → list string → list string → Prop :=
  | blocked_here v key keys :
      is_dict v = false →
      blocked v (key :: keys) (key :: keys)
  | blocked_below m key child keys rest :
      m !! key = Some child →
      blocked child keys rest →
      blocked (VDict m) (key :: keys) rest.

(** The exception of the mutator at a value that is not a dictionary:
    the assignment fails on it when only the final key is left,
    [setdefault] before. *)
Definition blocked_error (rest : list string) : exn :=
  match rest with
  | [_] => TypeError
  | _ => AttributeError
  end.

(** A car from which both set-ups can make an entity. *)
Definition registrable (car : value) (name model vin : value) : Prop :=
  ∃ m last_state vehicle_config,
    car = VDict m ∧
    m !! "last_state" = Some (VDict last_state) ∧
    last_state !! "display_name" = Some name ∧
    last_state !! "vehicle_config" = Some (VDict vehicle_config) ∧
    vehicle_config !! "car_type" = Some model ∧
    m !! "vin" = Some vin.

Definition registrable_car (car : value) : Prop :=
  ∃ name model vin, registrable car name model vin.

(** The identifier of the record cannot be read: [car["vin"]] raises
    [e]. *)
Definition unreadable_vin (car : value) (e : exn) : Prop :=
  (is_dict car = false ∧ e = TypeError) ∨
  (∃ m, car = VDict m ∧ m !! "vin" = None ∧ e = KeyError).

(** The first key of the path. *)
Definition first_key (key_path : string) : option string :=
  head (split dot key_path).

(** The scenario's record once it charges, a record without identifier,
    and two cars a set-up makes entities of. *)
Definition charging_record : value :=
  VDict {[ "vin" := VStr "ABC";
           "last_state" :=
             VDict {[ "charge_state" :=
                        VDict {[ "charging_state" := VStr "Charging";
                                 "scheduled_charging_start_time" := VNone ]} ]} ]}.

Definition anonymous_record : value :=
  VDict {[ "last_state" := VDict {[ "display_name" := VStr "Nameless" ]} ]}.

Definition garage_car (vin name : string) : value :=
  VDict {[ "vin" := VStr vin;
           "last_state" :=
             VDict {[ "display_name" := VStr name;
                      "vehicle_config" := VDict {[ "car_type" := VStr "model3" ]} ]} ]}.

Definition garage : list value :=
  [garage_car "ABC" "Ada"; garage_car "DEF" "Bob"].

Definition garage_sensor (vin name : string) : SensorSetup.TessieCarSensor :=
  {| SensorSetup.name := VStr name;
     SensorSetup.model := VStr "model3";
     SensorSetup.vin := VStr vin;
     SensorSetup.entity_description :=
       {| SensorSetup.translation_key := "display_name";
          SensorSetup.key := "last_state.display_name" |} |}.

Definition garage_switch (vin name : string) : SwitchSetup.TessieSwitch :=
  SwitchSetup.__init__ 1
    (Switch.charging_switch start_charging stop_charging) "token"
    (VStr name) (VStr "model3") (VStr vin).

(** What is stored at a path: the keys are followed through the
    dictionaries, and a key that is missing, or looked up in a value that
    is not a dictionary, leads nowhere.  Unlike the accessor it tells a
    stored null from a missing key. *)
Fixpoint lookup_path (v : value) (keys : list string) : option value :=
  match keys with
  | [] => Some v
  | key :: keys =>
      match v with
      | VDict m => child ← m !! key; lookup_path child keys
      | _ => None
      end
  end.

(** [R'] holds off the path [keys] what [R] holds: at every path that
    shares some first keys with [keys] and then goes another way. *)
Definition unchanged_off_path (R R' : value) (keys : list string) : Prop :=
  ∀ pre k1 r1 k2 r2,
    keys = pre ++ k1 :: r1 →
    k1 ≠ k2 →
    lookup_path R' (pre ++ k2 :: r2) = lookup_path R (pre ++ k2 :: r2).

(** Where a key of the path [keys] that is not its last is missing from
    the dictionary of [R] it is looked up in, [R'] holds under it the
    dictionaries for the rest of the path, each with one key. *)
Definition creates_missing (R R' : value) (keys : list string) (V : value)
  : Prop :=
  ∀ pre m key init final,
    keys = pre ++ key :: init ++ [final] →
    lookup_path R pre = Some (VDict m) →
    m !! key = None →
    lookup_path R' (pre ++ [key]) = Some (nest init final V).


(** ** Facts about the primitives *)

Lemma eq_str_true v s : eq_str v s = true ↔ v = VStr s.
Proof.
  destruct v; simpl; try (split; [discriminate | discriminate]).
  rewrite bool_decide_eq_true. split; [by intros -> | by intros [= ->]].
Qed.

Lemma eq_str_false v s : eq_str v s = false ↔ v ≠ VStr s.
Proof.
  rewrite <- eq_str_true. destruct (eq_str v s); split; congruence.
Qed.

Lemma eq_str_or_none_true v o : eq_str_or_none v o = true ↔ v = str_or_none o.
Proof.
  destruct o as [s|]; simpl; [apply eq_str_true |].
  destruct v; simpl; split; congruence.
Qed.

Lemma split_cons sep s : ∃ piece pieces, split sep s = piece :: pieces.
Proof.
  induction s as [|c s [piece [pieces IH]]]; simpl; [by eauto |].
  case_bool_decide; [by eauto |]. rewrite IH. by eauto.
Qed.

Lemma split_snoc sep s : ∃ init final,
  split sep s = init ++ [final] ∧
  last (split sep s) = Some final ∧
  removelast (split sep s) = init.
Proof.
  destruct (split_cons sep s) as (piece & pieces & ->).
  destruct (exists_last (l := piece :: pieces)) as (init & final & ->);
    [done |].
  exists init, final. split; [done |].
  split; [apply last_snoc | apply removelast_last].
Qed.

(** ** The path accessor *)

Section traverse.

Implicit Types (m : gmap string value) (v : value) (keys : list string).

(** One turn of the loop on a dictionary, by what is stored under the
    key. *)
Lemma traverse_keys_dict m key keys :
  Switch.traverse_keys (VDict m) (key :: keys) =
    match m !! key with
    | None => Ok VNone
    | Some child =>
        if is_none child then Ok VNone else Switch.traverse_keys child keys
    end.
Proof. simpl. by destruct (m !! key). Qed.

Lemma traverse_keys_not_dict v key keys :
  is_dict v = false →
  Switch.traverse_keys v (key :: keys) = Raise AttributeError.
Proof. by destruct v. Qed.

(** A path has a first key, which is looked up in the value given. *)
Lemma traverse_nested_dict_not_dict v key_path :
  is_dict v = false →
  Switch.traverse_nested_dict v key_path = Raise AttributeError.
Proof.
  intros Hv. unfold Switch.traverse_nested_dict.
  destruct (split_cons dot key_path) as (piece & pieces & Hkeys).
  simpl. rewrite Hkeys. by apply traverse_keys_not_dict.
Qed.

(** The two files hold the same function. *)
Lemma sensor_traverse_keys v keys :
  Sensor.traverse_keys v keys = Switch.traverse_keys v keys.
Proof.
  revert v. induction keys as [|key keys IH]; intros v; [done |].
  simpl. destruct (get v key) as [child|e]; simpl; [|done].
  by rewrite IH.
Qed.

Lemma sensor_traverse_nested_dict v key_path :
  Sensor.traverse_nested_dict v key_path =
  Switch.traverse_nested_dict v key_path.
Proof. apply sensor_traverse_keys. Qed.

Lemma resolves_dict v keys leaf :
  resolves v keys leaf → is_dict v = true.
Proof. by destruct 1. Qed.

Lemma traverse_keys_resolves v keys leaf :
  resolves v keys leaf → Switch.traverse_keys v keys = Ok leaf.
Proof.
  induction 1 as [m key leaf Hkey|m key child keys leaf Hkey Hres IH];
    rewrite traverse_keys_dict, Hkey.
  - by destruct leaf.
  - apply resolves_dict in Hres. by destruct child.
Qed.

Lemma traverse_keys_missing v keys :
  missing_segment v keys → Switch.traverse_keys v keys = Ok VNone.
Proof.
  induction 1 as [m key keys Hkey|m key child keys Hkey _ IH];
    rewrite traverse_keys_dict, Hkey; [done |].
  by destruct (is_none child).
Qed.

Lemma traverse_keys_null m keys :
  reaches (eq VNone) (VDict m) keys →
  Switch.traverse_keys (VDict m) keys = Ok VNone.
Proof.
  intros Hreach. remember (VDict m) as v eqn:Hv. revert m Hv.
  induction Hreach as [v key keys <-|m' key child keys Hkey Hreach IH];
    intros m Hv; [done |].
  injection Hv as ->. rewrite traverse_keys_dict, Hkey.
  destruct child; try done; [by inversion Hreach.. | by eapply IH].
Qed.

Lemma traverse_keys_leaf v keys :
  reaches non_null_leaf v keys →
  Switch.traverse_keys v keys = Raise AttributeError.
Proof.
  induction 1 as [v key keys [Hleaf Hnull]|m key child keys Hkey Hreach IH].
  - by apply traverse_keys_not_dict.
  - rewrite traverse_keys_dict, Hkey.
    destruct child; try done. by inversion Hreach as [? ? ? [_ ?]|].
Qed.

End traverse.

(** Solve a goal that a path lies in a given way in a closed value, key by
    key. *)
Ltac follow_path :=
  simpl;
  repeat first
    [ done
    | apply resolves_last; reflexivity
    | eapply resolves_step; [reflexivity |]
    | apply missing_here; reflexivity
    | eapply missing_below; [reflexivity |]
    | apply reaches_here; done
    | eapply reaches_below; [reflexivity |]
    | apply settable_last
    | apply settable_fresh; reflexivity
    | eapply settable_below; [reflexivity |] ].

(** The accessor of [sensor.py] is read as the one of [switch.py]. *)
Ltac sensor_as_switch :=
  change Sensor.traverse_nested_dict with Switch.traverse_nested_dict.

(** C8: when every intermediate segment of the path resolves to a map of
    the record and the final segment is present in that map, the path
    accessor (of either file) returns the stored leaf value itself. *)
Theorem traverse_resolves (R : value) (P : string) (leaf : value) :
  resolves R (split dot P) leaf →
  Switch.traverse_nested_dict R P = Ok leaf ∧
  Sensor.traverse_nested_dict R P = Ok leaf.
Proof.
  intros Hres. sensor_as_switch.
  split; by apply traverse_keys_resolves.
Qed.

Lemma traverse_resolves_witness :
  Switch.traverse_nested_dict scenario_record
    "last_state.charge_state.charging_state" = Ok (VStr "Stopped") ∧
  Sensor.traverse_nested_dict scenario_record
    "last_state.charge_state.charging_state" = Ok (VStr "Stopped").
Proof.
  apply (traverse_resolves scenario_record
           "last_state.charge_state.charging_state" (VStr "Stopped")).
  follow_path.
Defined.

(** C10: when the final segment of the path is present with the stored
    value null, the path accessor returns absence, which is also what it
    returns for any record in which a segment of the same path is
    missing. *)
Theorem traverse_present_null (R : value) (P : string) :
  resolves R (split dot P) VNone →
  Switch.traverse_nested_dict R P = Ok VNone ∧
  Sensor.traverse_nested_dict R P = Ok VNone ∧
  ∀ R', missing_segment R' (split dot P) →
    Switch.traverse_nested_dict R' P = Switch.traverse_nested_dict R P ∧
    Sensor.traverse_nested_dict R' P = Sensor.traverse_nested_dict R P.
Proof.
  intros Hres. sensor_as_switch.
  assert (Switch.traverse_nested_dict R P = Ok VNone) as HR
    by by apply traverse_keys_resolves.
  split_and!; [done.. |].
  intros R' Hmiss. rewrite HR.
  split; by apply traverse_keys_missing.
Qed.

Lemma traverse_present_null_witness :
  Switch.traverse_nested_dict scenario_record
    "last_state.charge_state.scheduled_charging_start_time" = Ok VNone.
Proof.
  refine (proj1 (traverse_present_null scenario_record
                   "last_state.charge_state.scheduled_charging_start_time" _)).
  follow_path.
Defined.

(** C1, as the code has it: in a record, a path with a segment missing
    from the map it is looked up in, or one that runs into a stored null
    before its final segment, makes the path accessor (of either file)
    return absence without raising; a path that runs into a value that is
    neither null nor a map before its final segment makes it raise
    [AttributeError]. *)
Theorem traverse_absent_or_raises (m : gmap string value) (D : value)
    (P : string) :
  (missing_segment (VDict m) (split dot P) ∨
   reaches (eq VNone) (VDict m) (split dot P) →
   Switch.traverse_nested_dict (VDict m) P = Ok VNone ∧
   Sensor.traverse_nested_dict (VDict m) P = Ok VNone) ∧
  (reaches non_null_leaf D (split dot P) →
   Switch.traverse_nested_dict D P = Raise AttributeError ∧
   Sensor.traverse_nested_dict D P = Raise AttributeError).
Proof.
  sensor_as_switch. split.
  - intros [Hmiss|Hnull]; split;
      first [by apply traverse_keys_missing | by apply traverse_keys_null].
  - intros Hleaf; split; by apply traverse_keys_leaf.
Qed.

Lemma traverse_absent_or_raises_witness :
  Switch.traverse_nested_dict scenario_record "last_state.drive_state.speed"
    = Ok VNone ∧
  Switch.traverse_nested_dict scenario_record "vin.length"
    = Raise AttributeError.
Proof.
  split.
  - refine (proj1 (proj1 (traverse_absent_or_raises scenario_fields VNone
                             "last_state.drive_state.speed") _)).
    left. follow_path.
  - refine (proj1 (proj2 (traverse_absent_or_raises ∅ scenario_record
                             "vin.length") _)).
    follow_path.
Defined.

(** C1 as stated fails: on [{"a": 5}] the path ["a.b"] reaches the number
    before its final segment, and the accessor raises. *)
Lemma traverse_non_map_raises :
  reaches not_map_shaped (VDict {[ "a" := VInt 5 ]}) (split dot "a.b") ∧
  Switch.traverse_nested_dict (VDict {[ "a" := VInt 5 ]}) "a.b"
    = Raise AttributeError ∧
  Sensor.traverse_nested_dict (VDict {[ "a" := VInt 5 ]}) "a.b"
    = Raise AttributeError.
Proof. split; [follow_path | done]. Qed.

(** ** The path mutator *)

Section set_path.

Implicit Types (m : gmap string value) (v : value) (init : list string).

Lemma set_along_dict m key init final v :
  Switch.set_along (VDict m) (key :: init) final v =
    child ← Switch.set_along (default (VDict ∅) (m !! key)) init final v;
    Ok (VDict (<[key := child]> m)).
Proof. done. Qed.

Lemma set_along_not_dict R init final v :
  is_dict R = false →
  Switch.set_along R init final v =
    Raise (match init with [] => TypeError | _ => AttributeError end).
Proof. by destruct R, init. Qed.

(** Below a missing key nothing can fail: the dictionaries are new.  The
    mutator therefore raises, if it does, before it has inserted anything,
    and the record is then the one it was given. *)
Lemma set_along_empty init final v :
  Switch.set_along (VDict ∅) init final v = Ok (nest init final v).
Proof.
  induction init as [|key init IH]; simpl; [by rewrite insert_empty |].
  rewrite lookup_empty. simpl. rewrite IH. simpl. by rewrite insert_empty.
Qed.

Lemma resolves_nest init final v :
  resolves (nest init final v) (init ++ [final]) v.
Proof.
  induction init as [|key init IH]; simpl.
  - apply resolves_last, lookup_singleton_eq.
  - eapply resolves_step; [apply lookup_singleton_eq | done].
Qed.

Lemma settable_dict R keys : settable R keys → is_dict R = true.
Proof. by destruct 1. Qed.

Lemma set_along_settable R init final v :
  settable R (init ++ [final]) →
  ∃ R', Switch.set_along R init final v = Ok R' ∧
        resolves R' (init ++ [final]) v.
Proof.
  revert R. induction init as [|key init IH]; intros R Hset.
  - pose proof (settable_dict _ _ Hset). destruct R as [| | | | | |m]; try done.
    eexists. split; [done |]. apply resolves_last, lookup_insert_eq.
  - inversion Hset as [?|? ? ? Hkey|? ? child ? Hkey Hchild]; subst.
    + by destruct init.
    + rewrite set_along_dict, Hkey. simpl. rewrite set_along_empty. simpl.
      eexists. split; [done |].
      eapply resolves_step; [apply lookup_insert_eq | apply resolves_nest].
    + destruct (IH _ Hchild) as (child' & Hok & Hres).
      rewrite set_along_dict, Hkey. simpl. rewrite Hok. simpl.
      eexists. split; [done |].
      eapply resolves_step; [apply lookup_insert_eq | done].
Qed.

(** The mutator returns on no other path. *)
Lemma set_along_returns R init final v R' :
  Switch.set_along R init final v = Ok R' →
  settable R (init ++ [final]).
Proof.
  revert R R'. induction init as [|key init IH]; intros R R' Hok.
  - destruct R; try done. apply settable_last.
  - destruct R as [| | | | | |m]; try done.
    rewrite set_along_dict in Hok.
    destruct (m !! key) as [child|] eqn:Hkey; simpl in Hok.
    + destruct (Switch.set_along child init final v) as [child'|e] eqn:Hc;
        [|done].
      eapply settable_below; [done | by eapply IH].
    + by apply settable_fresh.
Qed.

(** What is stored under the other keys of the record stays. *)
Lemma set_along_frame m key init final v m' k :
  Switch.set_along (VDict m) (key :: init) final v = Ok (VDict m') →
  k ≠ key →
  m' !! k = m !! k.
Proof.
  rewrite set_along_dict.
  destruct (Switch.set_along _ init final v) as [child|e]; simpl; [|done].
  intros [= <-] Hk. by rewrite lookup_insert_ne.
Qed.

Lemma set_nested_dict_value_keys R P v init final :
  split dot P = init ++ [final] →
  Switch.set_nested_dict_value R P v = Switch.set_along R init final v.
Proof.
  intros Hkeys. unfold Switch.set_nested_dict_value. simpl.
  by rewrite Hkeys, last_snoc, removelast_last.
Qed.

Lemma set_nested_dict_value_returns R P v :
  settable R (split dot P) ↔
  ∃ R', Switch.set_nested_dict_value R P v = Ok R'.
Proof.
  destruct (split_snoc dot P) as (init & final & Hkeys & _).
  rewrite (set_nested_dict_value_keys _ _ _ _ _ Hkeys), Hkeys. split.
  - intros Hset. destruct (set_along_settable _ _ _ v Hset) as (R' & ? & _).
    by exists R'.
  - intros [R' Hok]. by eapply set_along_returns.
Qed.

End set_path.

(** C3, as the code has it: when every intermediate segment of the path
    is either missing or leads to a map of the record, the path mutator
    returns, and the path accessor applied to the record it leaves then
    returns the value that was set. *)
Theorem set_then_traverse (R : value) (P : string) (V : value) :
  settable R (split dot P) →
  ∃ R', Switch.set_nested_dict_value R P V = Ok R' ∧
        Switch.traverse_nested_dict R' P = Ok V.
Proof.
  intros Hset. destruct (split_snoc dot P) as (init & final & Hkeys & _).
  rewrite (set_nested_dict_value_keys _ _ _ _ _ Hkeys).
  rewrite Hkeys in Hset.
  destruct (set_along_settable _ _ _ V Hset) as (R' & Hok & Hres).
  exists R'. split; [done |].
  unfold Switch.traverse_nested_dict. simpl. rewrite Hkeys.
  by apply traverse_keys_resolves.
Qed.

Lemma set_then_traverse_witness :
  ∃ R', Switch.set_nested_dict_value scenario_record
          "last_state.charge_state.charging_state" (VStr "Charging") = Ok R' ∧
        Switch.traverse_nested_dict R'
          "last_state.charge_state.charging_state" = Ok (VStr "Charging").
Proof.
  apply (set_then_traverse scenario_record
           "last_state.charge_state.charging_state" (VStr "Charging")).
  follow_path.
Defined.

(** C3 as stated fails: in [{"a": 5}] the path ["a.b"] cannot be set, the
    mutator raises [TypeError], and no record is left in which the
    accessor could find the value. *)
Lemma set_then_traverse_fails_on_leaf :
  Switch.set_nested_dict_value (VDict {[ "a" := VInt 5 ]}) "a.b" (VInt 1)
    = Raise TypeError ∧
  ¬ ∃ R', Switch.set_nested_dict_value (VDict {[ "a" := VInt 5 ]}) "a.b"
            (VInt 1) = Ok R' ∧
          Switch.traverse_nested_dict R' "a.b" = Ok (VInt 1).
Proof.
  assert (Switch.set_nested_dict_value (VDict {[ "a" := VInt 5 ]}) "a.b"
            (VInt 1) = Raise TypeError) as Hraise by done.
  split; [done |]. intros (R' & Hok & _). by rewrite Hraise in Hok.
Qed.

(** C9 as stated fails: in [{"a": "x"}] the first segment of ["a.b.c"]
    holds a string, the mutator raises [AttributeError] and sets
    nothing. *)
Lemma set_nested_dict_value_raises_on_leaf :
  Switch.set_nested_dict_value (VDict {[ "a" := VStr "x" ]}) "a.b.c" (VInt 5)
    = Raise AttributeError ∧
  ¬ ∃ R', Switch.set_nested_dict_value (VDict {[ "a" := VStr "x" ]}) "a.b.c"
            (VInt 5) = Ok R' ∧
          resolves R' (split dot "a.b.c") (VInt 5).
Proof.
  assert (Switch.set_nested_dict_value (VDict {[ "a" := VStr "x" ]}) "a.b.c"
            (VInt 5) = Raise AttributeError) as Hraise by done.
  split; [done |]. intros (R' & Hok & _). by rewrite Hraise in Hok.
Qed.

(** ** The record locator *)

(** Solve a goal about the identifier field of a closed record. *)
Ltac read_vin :=
  lazymatch goal with
  | |- has_vin _ _ => eexists; split; [reflexivity | reflexivity]
  | |- carries_vin _ => eexists _, _; split; [reflexivity | reflexivity]
  | |- has_other_vin _ _ =>
      eexists _, _; split_and!; [reflexivity | reflexivity | discriminate]
  | |- ¬ has_vin _ _ =>
      let m := fresh in let H := fresh in let H' := fresh in
      intros (m & H & H'); injection H as <-; discriminate H'
  end.

Ltac read_vins := repeat first [apply Forall_nil_2 | apply Forall_cons_2; [read_vin |]].

Section locate.

Implicit Types (car : value) (cars pre post : list value) (vin : string).

Lemma sensor_find_car cars vin :
  Sensor.find_car cars vin = Switch.find_car cars vin.
Proof.
  induction cars as [|car cars IH]; [done |].
  simpl. destruct (getitem car "vin") as [id|e]; simpl; [|done].
  by rewrite IH.
Qed.

Lemma carries_other_vin car vin :
  carries_vin car → ¬ has_vin car vin → has_other_vin car vin.
Proof.
  intros (m & id & -> & Hid) Hno. exists m, id. split_and!; [done.. |].
  intros ->. apply Hno. by exists m.
Qed.

Lemma find_car_match car cars vin :
  has_vin car vin → Switch.find_car (car :: cars) vin = Ok car.
Proof.
  intros (m & -> & Hid). simpl. rewrite Hid. simpl.
  by rewrite bool_decide_eq_true_2.
Qed.

Lemma find_car_other car cars vin :
  has_other_vin car vin →
  Switch.find_car (car :: cars) vin = Switch.find_car cars vin.
Proof.
  intros (m & id & -> & Hid & Hne). simpl. rewrite Hid. simpl.
  apply eq_str_false in Hne. by rewrite Hne.
Qed.

Lemma find_car_first pre car post vin :
  Forall (fun c => has_other_vin c vin) pre →
  has_vin car vin →
  Switch.find_car (pre ++ car :: post) vin = Ok car.
Proof.
  intros Hpre Hcar. induction Hpre as [|c pre Hc _ IH].
  - by apply find_car_match.
  - rewrite <- app_comm_cons. by rewrite find_car_other.
Qed.

Lemma find_car_none cars vin :
  Forall (fun c => has_other_vin c vin) cars →
  Switch.find_car cars vin = Ok VNone.
Proof.
  induction 1 as [|c cars Hc _ IH]; [done |]. by rewrite find_car_other.
Qed.

Lemma Forall_other_vin cars vin :
  Forall carries_vin cars →
  Forall (fun c => ¬ has_vin c vin) cars →
  Forall (fun c => has_other_vin c vin) cars.
Proof.
  intros Hcarry. induction Hcarry as [|c cars Hc _ IH]; [done |].
  intros [Hno Hnos]%Forall_cons_1. apply Forall_cons_2; [|by apply IH].
  by apply carries_other_vin.
Qed.

End locate.

(** C7: in a snapshot whose records each carry an identifier field, the
    record locator (of either file) returns the first record, in list
    order, whose identifier field equals the given string, and absence
    when no record matches. *)
Theorem getCarByVin_first_match (coordinator : TessieDataUpdateCoordinator)
    (vin : string) :
  Forall carries_vin (data_results coordinator) →
  (∀ pre car post,
     data_results coordinator = pre ++ car :: post →
     Forall (fun c => ¬ has_vin c vin) pre →
     has_vin car vin →
     Switch.getCarByVin coordinator vin = Ok car ∧
     Sensor.getCarByVin coordinator vin = Ok car) ∧
  (Forall (fun c => ¬ has_vin c vin) (data_results coordinator) →
   Switch.getCarByVin coordinator vin = Ok VNone ∧
   Sensor.getCarByVin coordinator vin = Ok VNone).
Proof.
  intros Hcarry. unfold Switch.getCarByVin, Sensor.getCarByVin.
  change Sensor.find_car with Switch.find_car. split.
  - intros pre car post Hcars Hpre Hcar. rewrite Hcars in Hcarry |- *.
    apply Forall_app in Hcarry as [Hcarry _].
    split; by apply find_car_first; [apply Forall_other_vin |].
  - intros Hnone. split; by apply find_car_none, Forall_other_vin.
Qed.

Lemma getCarByVin_first_match_witness :
  (Switch.getCarByVin {| data_results := cars_with_duplicate |} "ABC"
     = Ok scenario_record ∧
   Sensor.getCarByVin {| data_results := cars_with_duplicate |} "ABC"
     = Ok scenario_record) ∧
  (Switch.getCarByVin {| data_results := three_cars |} "XYZ" = Ok VNone ∧
   Sensor.getCarByVin {| data_results := three_cars |} "XYZ" = Ok VNone).
Proof.
  split.
  - refine (proj1 (getCarByVin_first_match
                     {| data_results := cars_with_duplicate |} "ABC" _)
              [VDict other_car_fields] scenario_record
              [VDict duplicate_fields] _ _ _);
      [read_vins | reflexivity | read_vins | read_vin].
  - refine (proj2 (getCarByVin_first_match
                     {| data_results := three_cars |} "XYZ" _) _);
      read_vins.
Defined.

(** ** The sensor and the switch *)

Section switch.

Import Switch.
Implicit Types (self : TessieSwitch) (hass : Hass) (car : value)
  (pre post : list value).

Lemma set_in_vehicles_first pre car post vin key_path v :
  Forall (fun c => has_other_vin c vin) pre →
  has_vin car vin →
  set_in_vehicles (pre ++ car :: post) vin key_path v =
    car' ← set_nested_dict_value car key_path v; Ok (pre ++ car' :: post).
Proof.
  intros Hpre (m & -> & Hid). induction Hpre as [|c pre Hc _ IH].
  - simpl. rewrite Hid. simpl. by rewrite bool_decide_eq_true_2.
  - destruct Hc as (mc & id & -> & Hidc & Hne). apply eq_str_false in Hne.
    rewrite <- !app_comm_cons.
    change (set_in_vehicles (VDict mc :: ?l) vin key_path v) with
      (id' ← getitem (VDict mc) "vin";
       if eq_str id' vin then
         vehicle ← set_nested_dict_value (VDict mc) key_path v;
         Ok (vehicle :: l)
       else
         vehicles ← set_in_vehicles l vin key_path v;
         Ok (VDict mc :: vehicles)).
    simpl getitem. rewrite Hidc. simpl mbind at 1. rewrite Hne, IH.
    by destruct (set_nested_dict_value (VDict m) key_path v).
Qed.

Lemma set_in_vehicles_none cars vin key_path v :
  Forall (fun c => has_other_vin c vin) cars →
  set_in_vehicles cars vin key_path v = Ok cars.
Proof.
  induction 1 as [|c cars (mc & id & -> & Hidc & Hne) _ IH]; [done |].
  apply eq_str_false in Hne. simpl. rewrite Hidc. simpl.
  by rewrite Hne, IH.
Qed.

(** Both transitions, once their remote call has returned. *)
Lemma transition_returns self hass func v pre car post :
  func_outcome func (_session self) (_vin self) (_apiKey self) = Ok () →
  data_results (coordinator hass) = pre ++ car :: post →
  Forall (fun c => has_other_vin c (_vin self)) pre →
  has_vin car (_vin self) →
  (await func (_session self) (_vin self) (_apiKey self);;
   on_results (fun vehicles =>
     set_in_vehicles vehicles (_vin self) (key (_description self)) v);;
   async_write_ha_state) hass
  = transition_outcome self hass func v pre car post.
Proof.
  intros Hfunc Hcars Hpre Hcar.
  unfold mbind, task_bind, await, on_results, async_write_ha_state,
    transition_outcome.
  rewrite Hfunc. simpl. rewrite Hcars, (set_in_vehicles_first _ _ _ _ _ _ Hpre Hcar).
  destruct (set_nested_dict_value car _ v) as [car'|e]; simpl; [|done].
  by rewrite <- app_assoc.
Qed.

Lemma transition_raises self hass func e (rest : Task ()) :
  func_outcome func (_session self) (_vin self) (_apiKey self) = Raise e →
  (await func (_session self) (_vin self) (_apiKey self);; rest) hass
  = failure_outcome self hass func e.
Proof.
  intros Hfunc. unfold mbind, task_bind, await, failure_outcome.
  by rewrite Hfunc.
Qed.

(** The state of the switch once the record has been located. *)
Lemma is_on_located self hass car :
  getCarByVin (coordinator hass) (_vin self) = Ok car →
  is_on self hass =
    value ← traverse_nested_dict car (key (_description self));
    Ok (eq_str_or_none value (enabled_value (_description self))).
Proof. unfold is_on. by intros ->. Qed.

(** The switch is on exactly when the accessor, applied to what the
    locator returned, returns the configured "on" value. *)
Lemma is_on_true_iff self hass :
  is_on self hass = Ok true ↔
  ∃ car value,
    getCarByVin (coordinator hass) (_vin self) = Ok car ∧
    traverse_nested_dict car (key (_description self)) = Ok value ∧
    value = str_or_none (enabled_value (_description self)).
Proof.
  unfold is_on. split.
  - destruct (getCarByVin _ _) as [car|e]; simpl; [|done].
    destruct (traverse_nested_dict car _) as [value|e] eqn:Hval; simpl;
      [|done].
    intros [= Heq%eq_str_or_none_true]. by exists car, value.
  - intros (car & value & -> & Hval & Heq). simpl. rewrite Hval. simpl.
    apply eq_str_or_none_true in Heq. by rewrite Heq.
Qed.

(** With a string as "on" value, a located record in which a segment of
    the path is missing shows the switch off. *)
Lemma is_on_missing_segment self hass car on :
  getCarByVin (coordinator hass) (_vin self) = Ok car →
  enabled_value (_description self) = Some on →
  missing_segment car (split dot (key (_description self))) →
  is_on self hass = Ok false.
Proof.
  intros Hcar Hon Hmiss. rewrite (is_on_located _ _ _ Hcar).
  unfold traverse_nested_dict. simpl. rewrite traverse_keys_missing by done.
  by rewrite Hon.
Qed.

End switch.

Section no_match.

Implicit Types (cars : list value) (vin : string).

(** Where no record has the identifier, the locator's [None] is handed
    to the accessor, whose first [.get] is called on it. *)
Lemma native_value_no_match (self : Sensor.TessieCarSensor) cars :
  Forall (fun c => has_other_vin c (Sensor.vin self)) cars →
  Sensor.native_value self {| data_results := cars |} = Raise AttributeError.
Proof.
  intros Hcars. unfold Sensor.native_value, Sensor.getCarByVin.
  change Sensor.find_car with Switch.find_car.
  rewrite find_car_none by done.
  change (Sensor.traverse_nested_dict VNone (Sensor.description_key self)
          = Raise AttributeError).
  rewrite sensor_traverse_nested_dict.
  by apply traverse_nested_dict_not_dict.
Qed.

Lemma is_on_no_match (self : Switch.TessieSwitch) (hass : Switch.Hass) :
  Forall (fun c => has_other_vin c (Switch._vin self))
    (data_results (Switch.coordinator hass)) →
  Switch.is_on self hass = Raise AttributeError.
Proof.
  intros Hcars. unfold Switch.is_on, Switch.getCarByVin.
  rewrite find_car_none by done.
  change ((value ← Switch.traverse_nested_dict VNone
                     (Switch.key (Switch._description self));
           Ok (eq_str_or_none value
                 (Switch.enabled_value (Switch._description self))))
          = Raise AttributeError).
  by rewrite traverse_nested_dict_not_dict.
Qed.

End no_match.

(** C2: the claim wants the switch off when no record has the switch's
    identifier.  With identifier ["XYZ"] and a snapshot of three other
    records the locator returns [None], and [is_on] raises
    [AttributeError] instead of returning [False]. *)
Theorem is_on_unknown_vin_raises :
  Switch.getCarByVin {| data_results := three_cars |} "XYZ" = Ok VNone ∧
  Switch.is_on (charging_switch_of "XYZ" start_charging stop_charging)
    (hass_with three_cars) = Raise AttributeError.
Proof. done. Qed.

(** C4: the claim wants the sensor's value query to return absence when no
    record has the sensor's identifier.  With identifier ["XYZ"] and a
    snapshot of three other records the locator returns [None], and
    [native_value] raises [AttributeError] instead of returning [None]. *)
Theorem native_value_unknown_vin_raises :
  Sensor.getCarByVin {| data_results := three_cars |} "XYZ" = Ok VNone ∧
  Sensor.native_value
    {| Sensor.vin := "XYZ"; Sensor.description_key := "last_state.display_name" |}
    {| data_results := three_cars |} = Raise AttributeError.
Proof. done. Qed.

(** C6: when the configured enable action raises, turn-on raises the same
    exception, having awaited the call and nothing more: the coordinator's
    snapshot is the one it was and no state is written.  The same holds of
    turn-off and the disable action. *)
Theorem remote_failure_propagates (self : Switch.TessieSwitch)
    (hass : Switch.Hass) (func : Switch.RemoteFunc) (e : exn) :
  Switch.func_outcome func (Switch._session self) (Switch._vin self)
    (Switch._apiKey self) = Raise e →
  let awaited :=
    Switch.Awaited (Switch.func_name func) (Switch._session self)
      (Switch._vin self) (Switch._apiKey self) in
  (Switch.enabled_func (Switch._description self) = Some func →
   let '(outcome, hass') := Switch.async_turn_on self hass in
   outcome = Raise e ∧
   Switch.coordinator hass' = Switch.coordinator hass ∧
   Switch.events hass' = Switch.events hass ++ [awaited]) ∧
  (Switch.disabled_func (Switch._description self) = Some func →
   let '(outcome, hass') := Switch.async_turn_off self hass in
   outcome = Raise e ∧
   Switch.coordinator hass' = Switch.coordinator hass ∧
   Switch.events hass' = Switch.events hass ++ [awaited]).
Proof.
  intros Hfunc. simpl.
  unfold Switch.async_turn_on, Switch.async_turn_off.
  split; intros ->; by rewrite (transition_raises _ _ _ _ _ Hfunc).
Qed.

Lemma remote_failure_propagates_witness :
  let self := charging_switch_of "ABC" (failing "start_charging") stop_charging in
  let '(outcome, hass') := Switch.async_turn_on self (hass_with three_cars) in
  outcome = Raise (OtherError "ClientResponseError") ∧
  Switch.coordinator hass' = {| data_results := three_cars |} ∧
  Switch.events hass' = [Switch.Awaited "start_charging" 1 "ABC" "token"].
Proof.
  refine (proj1 (remote_failure_propagates
                   (charging_switch_of "ABC" (failing "start_charging")
                      stop_charging)
                   (hass_with three_cars) (failing "start_charging")
                   (OtherError "ClientResponseError") _) _);
    reflexivity.
Defined.

(** The second and third scenario of the switch: the record shows
    ["Stopped"] and the switch is off; after a successful turn-on the
    leaf holds ["Charging"] and the switch is on. *)
Example scenario_turn_on :
  let self := charging_switch_of "ABC" start_charging stop_charging in
  let hass := hass_with [scenario_record] in
  Switch.is_on self hass = Ok false ∧
  (Switch.async_turn_on self hass).1 = Ok () ∧
  (car ← Switch.getCarByVin
           (Switch.coordinator (Switch.async_turn_on self hass).2) "ABC";
   Switch.traverse_nested_dict car "last_state.charge_state.charging_state")
    = Ok (VStr "Charging") ∧
  Switch.is_on self (Switch.async_turn_on self hass).2 = Ok true.
Proof. done. Qed.

(** ** Further properties of the path accessor *)

Section traverse_more.

Implicit Types (m : gmap string value) (v : value) (keys : list string).

Lemma split_app sep s t :
  split sep (s +:+ String sep t) = split sep s ++ split sep t.
Proof.
  induction s as [|c s IH]; simpl.
  - by rewrite bool_decide_eq_true_2.
  - case_bool_decide; [by rewrite IH |].
    rewrite IH. by destruct (split_cons sep s) as (piece & pieces & ->).
Qed.

Lemma traverse_keys_raises v keys e :
  Switch.traverse_keys v keys = Raise e →
  e = AttributeError ∧ (v = VNone ∨ reaches non_null_leaf v keys).
Proof.
  revert v. induction keys as [|key keys IH]; intros v; [done |].
  destruct (is_dict v) eqn:Hv.
  - destruct v as [| | | | | |m]; try done.
    rewrite traverse_keys_dict.
    destruct (m !! key) as [child|] eqn:Hkey; [|done].
    destruct (is_none child) eqn:Hnone; [done |].
    intros [-> [->|Hreach]]%IH; [done |].
    split; [done |]. right. by eapply reaches_below.
  - rewrite traverse_keys_not_dict by done. intros [= <-]. split; [done |].
    destruct v; try done; first [by left | right; by apply reaches_here].
Qed.

Lemma traverse_nested_dict_raises v key_path e :
  Switch.traverse_nested_dict v key_path = Raise e →
  e = AttributeError ∧
  (v = VNone ∨ reaches non_null_leaf v (split dot key_path)).
Proof. apply traverse_keys_raises. Qed.

(** The accessor on a path of several keys, by its first part. *)
Lemma traverse_keys_app v key keys rest :
  Switch.traverse_keys v ((key :: keys) ++ rest) =
    found ← Switch.traverse_keys v (key :: keys);
    if is_none found then Ok VNone else Switch.traverse_keys found rest.
Proof.
  revert v key. induction keys as [|key' keys IH]; intros v key.
  - simpl. destruct (get v key) as [child|e]; simpl; [|done].
    destruct (is_none child) eqn:Hnone; simpl; [done | by rewrite Hnone].
  - change (Switch.traverse_keys v ((key :: key' :: keys) ++ rest)) with
      (child ← get v key;
       if is_none child then Ok VNone
       else Switch.traverse_keys child ((key' :: keys) ++ rest)).
    change (Switch.traverse_keys v (key :: key' :: keys)) with
      (child ← get v key;
       if is_none child then Ok VNone
       else Switch.traverse_keys child (key' :: keys)).
    destruct (get v key) as [child|e]; simpl mbind; [|done].
    destruct (is_none child); [done |]. apply IH.
Qed.

End traverse_more.

(** ** Further properties of the path mutator *)

Section set_path_more.

Implicit Types (m : gmap string value) (v : value) (init : list string).

Lemma set_along_ok_dict R init final v R' :
  Switch.set_along R init final v = Ok R' → is_dict R = true ∧ is_dict R' = true.
Proof.
  destruct R as [| | | | | |m]; try by destruct init.
  destruct init as [|key init]; [by intros [= <-] |].
  rewrite set_along_dict.
  destruct (Switch.set_along _ init final v); simpl; [|done].
  by intros [= <-].
Qed.

Lemma traverse_keys_empty key keys :
  Switch.traverse_keys (VDict ∅) (key :: keys) = Ok VNone.
Proof. by rewrite traverse_keys_dict, lookup_empty. Qed.

Lemma set_along_other_path R init final v R' pre k1 r1 k2 r2 :
  Switch.set_along R init final v = Ok R' →
  init ++ [final] = pre ++ k1 :: r1 →
  k1 ≠ k2 →
  Switch.traverse_keys R' (pre ++ k2 :: r2) =
  Switch.traverse_keys R (pre ++ k2 :: r2).
Proof.
  revert R R' init. induction pre as [|k pre IH]; intros R R' init Hok Hkeys Hne.
  - destruct (set_along_ok_dict _ _ _ _ _ Hok) as [HR _].
    destruct R as [| | | | | |m]; try done. simpl in Hkeys.
    assert (∃ x, R' = VDict (<[k1 := x]> m)) as [x ->].
    { destruct init as [|key init]; simplify_eq/=; [by eexists |].
      destruct (Switch.set_along _ init final v); simplify_eq/=.
      by eexists. }
    simpl app. rewrite !traverse_keys_dict. by rewrite lookup_insert_ne.
  - destruct init as [|key init].
    { simplify_eq/=. by destruct pre. }
    simpl in Hkeys. injection Hkeys as -> Hkeys.
    destruct (set_along_ok_dict _ _ _ _ _ Hok) as [HR _].
    destruct R as [| | | | | |m]; try done.
    rewrite set_along_dict in Hok.
    destruct (Switch.set_along (default (VDict ∅) (m !! k)) init final v)
      as [child'|] eqn:Hchild; [|done].
    injection Hok as <-.
    destruct (set_along_ok_dict _ _ _ _ _ Hchild) as [Hc Hc'].
    rewrite <- !app_comm_cons, !traverse_keys_dict, lookup_insert_eq.
    rewrite (IH _ _ _ Hchild Hkeys Hne).
    destruct child'; try done. simpl.
    destruct (m !! k) as [child|]; simpl in *.
    + by destruct child.
    + destruct pre; apply traverse_keys_empty.
Qed.

Lemma set_along_overwrite R init final v1 v2 R1 :
  Switch.set_along R init final v1 = Ok R1 →
  Switch.set_along R1 init final v2 = Switch.set_along R init final v2.
Proof.
  revert R R1. induction init as [|key init IH]; intros R R1 Hok.
  - destruct R as [| | | | | |m]; try done. injection Hok as <-. simpl.
    by rewrite insert_insert_eq.
  - destruct (set_along_ok_dict _ _ _ _ _ Hok) as [HR _].
    destruct R as [| | | | | |m]; try done.
    rewrite set_along_dict in Hok.
    destruct (Switch.set_along (default (VDict ∅) (m !! key)) init final v1)
      as [child1|] eqn:Hchild; [|done].
    injection Hok as <-.
    rewrite !set_along_dict, lookup_insert_eq. simpl default at 1.
    rewrite (IH _ _ Hchild).
    destruct (Switch.set_along _ init final v2); simpl; [|done].
    by rewrite insert_insert_eq.
Qed.

Lemma blocked_error_more key init final :
  blocked_error (key :: init ++ [final]) = AttributeError.
Proof. by destruct init. Qed.

Lemma set_along_blocked R init final v rest :
  blocked R (init ++ [final]) rest →
  Switch.set_along R init final v = Raise (blocked_error rest).
Proof.
  revert R. induction init as [|key init IH]; intros R Hblocked.
  - inversion Hblocked as [? ? ? HR|? ? ? ? ? _ Hchild]; subst.
    + by destruct R.
    + inversion Hchild.
  - inversion Hblocked as [? ? ? HR|? ? child ? ? Hkey Hchild]; subst.
    + rewrite blocked_error_more. by destruct R.
    + rewrite set_along_dict, Hkey. simpl. by rewrite (IH _ Hchild).
Qed.

Lemma set_along_raises R init final v e :
  Switch.set_along R init final v = Raise e →
  ∃ rest, blocked R (init ++ [final]) rest ∧ e = blocked_error rest.
Proof.
  revert R. induction init as [|key init IH]; intros R Hraise.
  - destruct R; try done; injection Hraise as <-;
      by eexists; split; [apply blocked_here |].
  - destruct (is_dict R) eqn:HR.
    + destruct R as [| | | | | |m]; try done.
      rewrite set_along_dict in Hraise.
      destruct (m !! key) as [child|] eqn:Hkey; simpl in Hraise.
      * destruct (Switch.set_along child init final v) as [|e'] eqn:Hchild;
          [done |].
        injection Hraise as ->.
        destruct (IH _ Hchild) as (rest & Hblocked & ->).
        exists rest. split; [by eapply blocked_below | done].
      * by rewrite set_along_empty in Hraise.
    + rewrite set_along_not_dict in Hraise by done. injection Hraise as <-.
      eexists. split; [by apply blocked_here |].
      by rewrite blocked_error_more.
Qed.

End set_path_more.

(** ** Further properties of the locator and of the transitions *)

Section switch_more.

Import Switch.
Implicit Types (self : TessieSwitch) (hass : Hass) (car : value)
  (cars pre post : list value) (vin : string).

Lemma getitem_unreadable car e :
  getitem car "vin" = Raise e ↔ unreadable_vin car e.
Proof.
  unfold unreadable_vin. split.
  - destruct car as [| | | | | |m]; simpl; try (intros [= <-]; by left).
    destruct (m !! "vin") eqn:Hvin; [done |]. intros [= <-]. right. by exists m.
  - intros [[Hcar ->]|(m & -> & Hvin & ->)]; [by destruct car |].
    simpl. by rewrite Hvin.
Qed.

Lemma find_car_unreadable pre car post vin e :
  Forall (fun c => has_other_vin c vin) pre →
  unreadable_vin car e →
  find_car (pre ++ car :: post) vin = Raise e.
Proof.
  intros Hpre Hcar%getitem_unreadable. induction Hpre as [|c pre Hc _ IH].
  - simpl. by rewrite Hcar.
  - rewrite <- app_comm_cons. by rewrite find_car_other.
Qed.

Lemma find_car_raises cars vin e :
  find_car cars vin = Raise e →
  ∃ pre car post,
    cars = pre ++ car :: post ∧
    Forall (fun c => has_other_vin c vin) pre ∧
    unreadable_vin car e.
Proof.
  induction cars as [|car cars IH]; [done |]. simpl.
  destruct (getitem car "vin") as [id|e'] eqn:Hid; simpl.
  - destruct (eq_str id vin) eqn:Heq; [done |].
    intros (pre & bad & post & -> & Hpre & Hbad)%IH.
    exists (car :: pre), bad, post. split_and!; [done | | done].
    apply Forall_cons_2; [|done].
    destruct car as [| | | | | |m]; try done. simpl in Hid.
    destruct (m !! "vin") as [id'|] eqn:Hvin; [|done]. injection Hid as ->.
    exists m, id. split_and!; [done.. |]. by apply eq_str_false.
  - intros [= ->]. exists [], car, cars. split_and!; [done.. |].
    by apply getitem_unreadable.
Qed.

Lemma set_in_vehicles_unreadable pre car post vin key_path v e :
  Forall (fun c => has_other_vin c vin) pre →
  unreadable_vin car e →
  set_in_vehicles (pre ++ car :: post) vin key_path v = Raise e.
Proof.
  intros Hpre Hcar%getitem_unreadable. induction Hpre as [|c pre Hc _ IH].
  - simpl. by rewrite Hcar.
  - destruct Hc as (mc & id & -> & Hidc & Hne). apply eq_str_false in Hne.
    rewrite <- app_comm_cons. simpl. rewrite Hidc. simpl.
    by rewrite Hne, IH.
Qed.

Lemma coordinator_eta (c : TessieDataUpdateCoordinator) :
  {| data_results := data_results c |} = c.
Proof. by destruct c. Qed.

(** What is stored under a key of the record other than the first key of
    the path stays. *)
Lemma set_nested_dict_value_frame m key_path v R' k :
  set_nested_dict_value (VDict m) key_path v = Ok R' →
  first_key key_path ≠ Some k →
  ∃ m', R' = VDict m' ∧ m' !! k = m !! k.
Proof.
  unfold first_key.
  destruct (split_snoc dot key_path) as (init & final & Hkeys & _).
  rewrite (set_nested_dict_value_keys _ _ _ _ _ Hkeys), Hkeys.
  destruct init as [|key init].
  - simpl. intros [= <-] Hk. eexists. split; [done |].
    apply lookup_insert_ne. congruence.
  - intros Hok Hk. simpl in Hk.
    destruct (set_along_ok_dict _ _ _ _ _ Hok) as [_ HR'].
    destruct R' as [| | | | | |m']; try done. exists m'. split; [done |].
    eapply set_along_frame; [done | congruence].
Qed.

Lemma set_nested_dict_value_keeps_vin car key_path v car' vin :
  set_nested_dict_value car key_path v = Ok car' →
  first_key key_path ≠ Some "vin" →
  has_vin car vin →
  has_vin car' vin.
Proof.
  intros Hok Hk (m & -> & Hvin).
  destruct (set_nested_dict_value_frame _ _ _ _ _ Hok Hk) as (m' & -> & Hm').
  exists m'. split; [done |]. by rewrite Hm'.
Qed.

Lemma set_nested_dict_value_reads_back R key_path v R' :
  set_nested_dict_value R key_path v = Ok R' →
  traverse_nested_dict R' key_path = Ok v.
Proof.
  destruct (split_snoc dot key_path) as (init & final & Hkeys & _).
  rewrite (set_nested_dict_value_keys _ _ _ _ _ Hkeys). intros Hok.
  pose proof (set_along_returns _ _ _ _ _ Hok) as Hset.
  destruct (set_along_settable _ _ _ v Hset) as (R'' & Hok' & Hres).
  assert (R'' = R') as -> by congruence.
  unfold traverse_nested_dict. simpl. rewrite Hkeys.
  by apply traverse_keys_resolves.
Qed.

Lemma eq_str_or_none_str_or_none a b :
  eq_str_or_none (str_or_none a) b = bool_decide (a = b).
Proof.
  destruct a as [s|], b as [t|]; simpl; try done.
  apply bool_decide_ext. split; [by intros -> | by intros [= ->]].
Qed.

(** The state of the switch after a transition that has set [v]. *)
Lemma is_on_after_transition self hass func v pre car post :
  func_outcome func (_session self) (_vin self) (_apiKey self) = Ok () →
  data_results (coordinator hass) = pre ++ car :: post →
  Forall (fun c => has_other_vin c (_vin self)) pre →
  has_vin car (_vin self) →
  first_key (key (_description self)) ≠ Some "vin" →
  settable car (split dot (key (_description self))) →
  let '(outcome, hass') :=
    transition_outcome self hass func (str_or_none v) pre car post in
  outcome = Ok () ∧
  is_on self hass' =
    Ok (bool_decide (v = enabled_value (_description self))).
Proof.
  intros Hfunc Hcars Hpre Hcar Hkey Hset. unfold transition_outcome.
  apply (set_nested_dict_value_returns _ _ (str_or_none v)) in Hset
    as [car' Hok].
  rewrite Hok. split; [done |].
  unfold is_on, getCarByVin. simpl coordinator. simpl data_results.
  rewrite find_car_first;
    [|done | by eapply set_nested_dict_value_keeps_vin].
  change ((value ← traverse_nested_dict car' (key (_description self));
           Ok (eq_str_or_none value (enabled_value (_description self))))
          = Ok (bool_decide (v = enabled_value (_description self)))).
  rewrite (set_nested_dict_value_reads_back _ _ _ _ Hok).
  simpl. by rewrite eq_str_or_none_str_or_none.
Qed.

End switch_more.

(** ** Entity set-up *)

Section setup.

Implicit Types (car : value) (cars : list value) (vin : string).

Lemma registrable_fields car name model id :
  registrable car name model id ↔
  ∃ last_state vehicle_config,
    getitem car "last_state" = Ok last_state ∧
    getitem last_state "display_name" = Ok name ∧
    getitem last_state "vehicle_config" = Ok vehicle_config ∧
    getitem vehicle_config "car_type" = Ok model ∧
    getitem car "vin" = Ok id.
Proof.
  split.
  - intros (m & ls & vc & -> & Hls & Hname & Hvc & Hmodel & Hid).
    exists (VDict ls), (VDict vc). simpl.
    by rewrite Hls, Hname, Hvc, Hmodel, Hid.
  - intros (ls & vc & Hls & Hname & Hvc & Hmodel & Hid).
    destruct car as [| | | | | |m]; try done. simpl in Hls, Hid.
    destruct (m !! "last_state") as [ls'|] eqn:Hm; [|done].
    injection Hls as ->.
    destruct ls as [| | | | | |ls]; try done. simpl in Hname, Hvc.
    destruct (ls !! "display_name") as [name'|] eqn:Hn; [|done].
    injection Hname as ->.
    destruct (ls !! "vehicle_config") as [vc'|] eqn:Hv; [|done].
    injection Hvc as ->.
    destruct vc as [| | | | | |vc]; try done. simpl in Hmodel.
    destruct (vc !! "car_type") as [model'|] eqn:Hc; [|done].
    injection Hmodel as ->.
    destruct (m !! "vin") as [id'|] eqn:Hi; [|done]. injection Hid as ->.
    by exists m, ls, vc.
Qed.

Lemma registrable_carries_vin car : registrable_car car → carries_vin car.
Proof.
  intros (name & model & id & m & ls & vc & -> & _ & _ & _ & _ & Hid).
  by exists m, id.
Qed.

Lemma registrable_display_name car name model id :
  registrable car name model id →
  Switch.traverse_nested_dict car "last_state.display_name" = Ok name.
Proof.
  intros (m & ls & vc & -> & Hls & Hname & _).
  apply traverse_keys_resolves. simpl.
  eapply resolves_step; [done |]. by apply resolves_last.
Qed.

(** In a snapshot whose records carry an identifier, the locator finds
    the first record with an identifier that occurs. *)
Lemma find_car_occurs cars vin :
  Forall carries_vin cars →
  Exists (fun c => has_vin c vin) cars →
  ∃ car, Switch.find_car cars vin = Ok car ∧ has_vin car vin ∧ car ∈ cars.
Proof.
  induction 1 as [|c cars (m & id & -> & Hid) _ IH]; intros Hex.
  - by apply Exists_nil in Hex.
  - destruct (eq_str id vin) eqn:Heq;
      [apply eq_str_true in Heq as -> | apply eq_str_false in Heq as Hne].
    + exists (VDict m). split_and!; [|by exists m | by left].
      apply find_car_match. by exists m.
    + assert (has_other_vin (VDict m) vin) as Hother by by exists m, id.
      apply Exists_cons in Hex as [(m' & [= <-] & Hid')|Hex]; [congruence |].
      destruct (IH Hex) as (car & Hfind & Hcar & Hin).
      exists car. rewrite find_car_other by done.
      split_and!; [done.. | by right].
Qed.

Lemma sensor_create_ok description car entity :
  SensorSetup.create description car = Ok entity ↔
  registrable car (SensorSetup.name entity) (SensorSetup.model entity)
    (SensorSetup.vin entity) ∧
  SensorSetup.entity_description entity = description.
Proof.
  rewrite registrable_fields. unfold SensorSetup.create. split.
  - destruct (getitem car "last_state") as [ls|]; simpl; [|done].
    destruct (getitem ls "display_name") as [name|] eqn:Hname; simpl;
      [|done].
    destruct (getitem ls "vehicle_config") as [vc|] eqn:Hvc; simpl; [|done].
    destruct (getitem vc "car_type") as [model|] eqn:Hmodel; simpl; [|done].
    destruct (getitem car "vin") as [id|]; simpl; [|done].
    intros [= <-]. split; [|done]. by exists ls, vc.
  - intros [(ls & vc & -> & Hname & Hvc & Hmodel & ->) <-]. simpl.
    rewrite Hname. simpl. rewrite Hvc. simpl. rewrite Hmodel. simpl.
    by destruct entity.
Qed.

Lemma sensor_create_raises description car e :
  SensorSetup.create description car = Raise e → ¬ registrable_car car.
Proof.
  intros Hraise (name & model & id & Hcar).
  pose proof (proj2 (sensor_create_ok description car
    {| SensorSetup.name := name; SensorSetup.model := model;
       SensorSetup.vin := id;
       SensorSetup.entity_description := description |})
    (conj Hcar eq_refl)) as Hok.
  congruence.
Qed.

Lemma sensor_for_cars_ok description cars entities :
  SensorSetup.for_cars description cars = Ok entities ↔
  Forall2 (fun car entity =>
    registrable car (SensorSetup.name entity) (SensorSetup.model entity)
      (SensorSetup.vin entity) ∧
    SensorSetup.entity_description entity = description) cars entities.
Proof.
  revert entities. induction cars as [|car cars IH]; intros entities; simpl.
  - split; [by intros [= <-] | by intros ->%Forall2_nil_inv_l].
  - split.
    + destruct (SensorSetup.create description car) as [entity|] eqn:Hcar;
        simpl; [|done].
      destruct (SensorSetup.for_cars description cars) as [rest|] eqn:Hrest;
        simpl; [|done].
      intros [= <-]. apply Forall2_cons; split;
        [by apply sensor_create_ok | by apply IH].
    + intros (entity & rest & Hcar & Hrest & ->)%Forall2_cons_inv_l.
      apply sensor_create_ok in Hcar. apply IH in Hrest.
      by rewrite Hcar, Hrest.
Qed.

Lemma sensor_for_cars_raises description cars e :
  SensorSetup.for_cars description cars = Raise e →
  ¬ Forall registrable_car cars.
Proof.
  induction cars as [|car cars IH]; [done |]. simpl.
  intros Hraise [Hcar Hcars]%Forall_cons_1.
  destruct (SensorSetup.create description car) as [entity|] eqn:Hc;
    simpl in Hraise; [|by eapply sensor_create_raises].
  destruct (SensorSetup.for_cars description cars) as [rest|] eqn:Hrest;
    simpl in Hraise; [done |].
  by apply IH.
Qed.

Lemma sensor_setup_for_cars coordinator :
  SensorSetup.async_setup_entry coordinator =
  SensorSetup.for_cars
    {| SensorSetup.translation_key := "display_name";
       SensorSetup.key := "last_state.display_name" |}
    (data_results coordinator).
Proof.
  unfold SensorSetup.async_setup_entry. simpl.
  destruct (SensorSetup.for_cars _ _); simpl; [|done].
  by rewrite app_nil_r.
Qed.

End setup.

Section switch_setup.

Context (start_charging stop_charging : Switch.RemoteFunc)
  (session : Switch.ClientSession) (apiKey : string).

Implicit Types (car : value) (cars : list value)
  (switch : SwitchSetup.TessieSwitch).

Lemma switch_create_ok description car switch :
  SwitchSetup.create session apiKey description car = Ok switch ↔
  registrable car (SwitchSetup._name switch) (SwitchSetup._model switch)
    (SwitchSetup._vin switch) ∧
  SwitchSetup._description switch = description ∧
  SwitchSetup._session switch = session ∧
  SwitchSetup._apiKey switch = apiKey ∧
  SwitchSetup._is_charging switch = false.
Proof.
  rewrite registrable_fields. unfold SwitchSetup.create. split.
  - destruct (getitem car "last_state") as [ls|]; simpl; [|done].
    destruct (getitem ls "display_name") as [name|] eqn:Hname; simpl;
      [|done].
    destruct (getitem ls "vehicle_config") as [vc|] eqn:Hvc; simpl; [|done].
    destruct (getitem vc "car_type") as [model|] eqn:Hmodel; simpl; [|done].
    destruct (getitem car "vin") as [id|]; simpl; [|done].
    intros [= <-]. split; [|done]. by exists ls, vc.
  - intros [(ls & vc & -> & Hname & Hvc & Hmodel & ->) (<- & <- & <- & Hc)].
    simpl. rewrite Hname. simpl. rewrite Hvc. simpl. rewrite Hmodel. simpl.
    destruct switch. simpl in Hc. by rewrite Hc.
Qed.

Lemma switch_for_cars_ok description cars switches :
  SwitchSetup.for_cars session apiKey description cars = Ok switches ↔
  Forall2 (fun car switch =>
    SwitchSetup.create session apiKey description car = Ok switch)
    cars switches.
Proof.
  revert switches. induction cars as [|car cars IH]; intros switches; simpl.
  - split; [by intros [= <-] | by intros ->%Forall2_nil_inv_l].
  - split.
    + destruct (SwitchSetup.create session apiKey description car)
        as [switch|] eqn:Hcar; simpl; [|done].
      destruct (SwitchSetup.for_cars session apiKey description cars)
        as [rest|] eqn:Hrest; simpl; [|done].
      intros [= <-]. apply Forall2_cons; split; [done | by apply IH].
    + intros (switch & rest & Hcar & Hrest & ->)%Forall2_cons_inv_l.
      apply IH in Hrest. by rewrite Hcar, Hrest.
Qed.

Lemma switch_for_cars_raises description cars e :
  SwitchSetup.for_cars session apiKey description cars = Raise e →
  ¬ Forall registrable_car cars.
Proof.
  induction cars as [|car cars IH]; [done |]. simpl.
  intros Hraise [(name & model & id & Hcar) Hcars]%Forall_cons_1.
  destruct (SwitchSetup.create session apiKey description car)
    as [switch|] eqn:Hc; simpl in Hraise.
  - destruct (SwitchSetup.for_cars session apiKey description cars)
      as [rest|] eqn:Hrest; simpl in Hraise; [done |].
    by apply IH.
  - pose proof (proj2 (switch_create_ok description car
      (SwitchSetup.__init__ session description apiKey name model id))
      (conj Hcar (conj eq_refl (conj eq_refl (conj eq_refl eq_refl)))))
      as Hok.
    congruence.
Qed.

Lemma switch_setup_for_cars coordinator :
  SwitchSetup.async_setup_entry start_charging stop_charging session apiKey
    coordinator =
  SwitchSetup.for_cars session apiKey
    (Switch.charging_switch start_charging stop_charging)
    (data_results coordinator).
Proof.
  unfold SwitchSetup.async_setup_entry. simpl.
  destruct (SwitchSetup.for_cars _ _ _ _); simpl; [|done].
  by rewrite app_nil_r.
Qed.

End switch_setup.

Lemma append_length s t :
  String.length (s +:+ t) = String.length s + String.length t.
Proof. induction s as [|c s IH]; simpl; [done | by rewrite IH]. Qed.

Lemma append_inj_r t s1 s2 : s1 +:+ t = s2 +:+ t → s1 = s2.
Proof.
  revert s2. induction s1 as [|c s1 IH]; intros [|c' s2] Heq.
  - done.
  - apply (f_equal String.length) in Heq.
    rewrite !append_length in Heq. simpl in Heq. lia.
  - apply (f_equal String.length) in Heq.
    rewrite !append_length in Heq. simpl in Heq. lia.
  - injection Heq as -> Heq. by rewrite (IH _ Heq).
Qed.

Lemma same_key_same_unique_id (a b : SwitchSetup.TessieSwitch) :
  Switch.key (SwitchSetup._description a) =
  Switch.key (SwitchSetup._description b) →
  SwitchSetup.unique_id a = SwitchSetup.unique_id b.
Proof. unfold SwitchSetup.unique_id. by intros ->. Qed.

(** ** Properties beyond the claims *)

(** X1: a path that is set leaves every path that parts from it alone:
    where the two paths share their first segments and then differ in
    one, the accessor returns after the mutation what it returned
    before. *)
Theorem set_keeps_other_paths (R R' V : value) (P Q : string)
    (pre : list string) (k1 k2 : string) (r1 r2 : list string) :
  Switch.set_nested_dict_value R P V = Ok R' →
  split dot P = pre ++ k1 :: r1 →
  split dot Q = pre ++ k2 :: r2 →
  k1 ≠ k2 →
  Switch.traverse_nested_dict R' Q = Switch.traverse_nested_dict R Q.
Proof.
  intros Hok HP HQ Hne.
  destruct (split_snoc dot P) as (init & final & Hkeys & _).
  rewrite (set_nested_dict_value_keys _ _ _ _ _ Hkeys) in Hok.
  unfold Switch.traverse_nested_dict. simpl. rewrite HQ.
  eapply set_along_other_path; [done | by rewrite <- Hkeys | done].
Qed.

Lemma set_keeps_other_paths_witness :
  Switch.traverse_nested_dict charging_record
    "last_state.charge_state.scheduled_charging_start_time" =
  Switch.traverse_nested_dict scenario_record
    "last_state.charge_state.scheduled_charging_start_time".
Proof.
  apply (set_keeps_other_paths scenario_record charging_record
           (VStr "Charging") "last_state.charge_state.charging_state"
           "last_state.charge_state.scheduled_charging_start_time"
           ["last_state"; "charge_state"] "charging_state"
           "scheduled_charging_start_time" [] []);
    [reflexivity | reflexivity | reflexivity | discriminate].
Defined.

(** X2: the last value set at a path wins: setting a second value at the
    path of a first gives what setting the second alone gives, and
    setting the same value again changes nothing. *)
Theorem set_overwrites (R R1 V1 V2 : value) (P : string) :
  Switch.set_nested_dict_value R P V1 = Ok R1 →
  Switch.set_nested_dict_value R1 P V2 = Switch.set_nested_dict_value R P V2 ∧
  Switch.set_nested_dict_value R1 P V1 = Ok R1.
Proof.
  intros Hok. destruct (split_snoc dot P) as (init & final & Hkeys & _).
  rewrite !(set_nested_dict_value_keys _ _ _ _ _ Hkeys) in *.
  split; [by eapply set_along_overwrite |].
  by rewrite (set_along_overwrite _ _ _ _ V1 _ Hok).
Qed.

Lemma set_overwrites_witness :
  Switch.set_nested_dict_value charging_record
    "last_state.charge_state.charging_state" (VStr "Stopped") =
  Switch.set_nested_dict_value scenario_record
    "last_state.charge_state.charging_state" (VStr "Stopped").
Proof.
  refine (proj1 (set_overwrites scenario_record charging_record
                   (VStr "Charging") (VStr "Stopped")
                   "last_state.charge_state.charging_state" _)).
  reflexivity.
Defined.

(** X3: the mutator raises exactly when, following the path, it comes to
    a value that is not a map with segments left; it raises [TypeError]
    when only the final segment is left and [AttributeError] when more
    are, and never anything else. *)
Theorem set_raises_iff (R V : value) (P : string) (e : exn) :
  Switch.set_nested_dict_value R P V = Raise e ↔
  ∃ rest, blocked R (split dot P) rest ∧ e = blocked_error rest.
Proof.
  destruct (split_snoc dot P) as (init & final & Hkeys & _).
  rewrite (set_nested_dict_value_keys _ _ _ _ _ Hkeys), Hkeys. split.
  - apply set_along_raises.
  - intros (rest & Hblocked & ->). by apply set_along_blocked.
Qed.

Lemma set_raises_iff_witness :
  Switch.set_nested_dict_value scenario_record "vin.length" (VInt 3)
    = Raise TypeError.
Proof.
  apply (proj2 (set_raises_iff scenario_record (VInt 3) "vin.length"
                  TypeError)).
  exists ["length"]. split; [|reflexivity].
  eapply blocked_below; [reflexivity |]. by apply blocked_here.
Defined.

(** X4: the accessor over a path [P.Q] is the accessor over [P] followed,
    unless that is absent, by the accessor over [Q] on what it found. *)
Theorem traverse_concat (D : value) (P Q : string) :
  Switch.traverse_nested_dict D (P +:+ String dot Q) =
    found ← Switch.traverse_nested_dict D P;
    if is_none found then Ok VNone else Switch.traverse_nested_dict found Q.
Proof.
  unfold Switch.traverse_nested_dict. simpl. rewrite split_app.
  destruct (split_cons dot P) as (key & keys & ->).
  apply traverse_keys_app.
Qed.

(** X5: the accessor raises exactly when it is given [None], or when the
    traversal reaches a value that is neither null nor a map before the
    final segment; what it raises is [AttributeError]. *)
Theorem traverse_raises_iff (D : value) (P : string) (e : exn) :
  Switch.traverse_nested_dict D P = Raise e ↔
  e = AttributeError ∧ (D = VNone ∨ reaches non_null_leaf D (split dot P)).
Proof.
  split.
  - apply traverse_keys_raises.
  - intros [-> [->|Hreach]]; [by apply traverse_nested_dict_not_dict |].
    by apply traverse_keys_leaf.
Qed.

Lemma traverse_raises_iff_witness :
  Switch.traverse_nested_dict VNone "last_state.display_name"
    = Raise AttributeError.
Proof.
  apply (proj2 (traverse_raises_iff VNone "last_state.display_name"
                  AttributeError)).
  split; [reflexivity | by left].
Defined.

(** X6: the locator (of either file) raises exactly when, before any
    record with the identifier, there is a record whose identifier cannot
    be read: [TypeError] for a record that is not a map, [KeyError] for
    one without the field. *)
Theorem getCarByVin_raises_iff (coordinator : TessieDataUpdateCoordinator)
    (vin : string) (e : exn) :
  (Switch.getCarByVin coordinator vin = Raise e ↔
   ∃ pre car post,
     data_results coordinator = pre ++ car :: post ∧
     Forall (fun c => has_other_vin c vin) pre ∧
     unreadable_vin car e) ∧
  Sensor.getCarByVin coordinator vin = Switch.getCarByVin coordinator vin.
Proof.
  split; [|apply sensor_find_car]. unfold Switch.getCarByVin. split.
  - apply find_car_raises.
  - intros (pre & car & post & -> & Hpre & Hcar).
    by apply find_car_unreadable.
Qed.

Lemma getCarByVin_raises_iff_witness :
  Switch.getCarByVin
    {| data_results :=
         [VDict other_car_fields; anonymous_record; scenario_record] |} "ABC"
    = Raise KeyError.
Proof.
  apply (proj2 (proj1 (getCarByVin_raises_iff
                         {| data_results :=
                              [VDict other_car_fields; anonymous_record;
                               scenario_record] |} "ABC" KeyError))).
  exists [VDict other_car_fields], anonymous_record, [scenario_record].
  split_and!; [reflexivity | read_vins |].
  right. eexists. split_and!; reflexivity.
Defined.

(** X7: when every record of the snapshot carries an identifier that
    can be read and none of them is the switch's, a transition whose
    remote call returns still makes the call and writes the state,
    leaves the snapshot as it is, and returns. *)
Theorem transition_without_match (self : Switch.TessieSwitch)
    (hass : Switch.Hass) (func : Switch.RemoteFunc) :
  Forall (fun c => has_other_vin c (Switch._vin self))
    (data_results (Switch.coordinator hass)) →
  Switch.func_outcome func (Switch._session self) (Switch._vin self)
    (Switch._apiKey self) = Ok () →
  let finished :=
    (Ok (),
     {| Switch.coordinator := Switch.coordinator hass;
        Switch.events :=
          Switch.events hass ++
          [Switch.Awaited (Switch.func_name func) (Switch._session self)
             (Switch._vin self) (Switch._apiKey self);
           Switch.WroteHaState] |}) in
  (Switch.enabled_func (Switch._description self) = Some func →
   Switch.async_turn_on self hass = finished) ∧
  (Switch.disabled_func (Switch._description self) = Some func →
   Switch.async_turn_off self hass = finished).
Proof.
  intros Hcars Hfunc. simpl.
  unfold Switch.async_turn_on, Switch.async_turn_off.
  split; intros ->;
    unfold mbind, Switch.task_bind, Switch.await, Switch.on_results,
      Switch.async_write_ha_state;
    rewrite Hfunc; simpl;
    rewrite (set_in_vehicles_none _ _ _ _ Hcars); simpl;
    by rewrite coordinator_eta, <- app_assoc.
Qed.

Lemma transition_without_match_witness :
  Switch.async_turn_on (charging_switch_of "XYZ" start_charging stop_charging)
    (hass_with three_cars) =
  (Ok (),
   {| Switch.coordinator := {| data_results := three_cars |};
      Switch.events :=
        [Switch.Awaited "start_charging" 1 "XYZ" "token";
         Switch.WroteHaState] |}).
Proof.
  refine (proj1 (transition_without_match
                   (charging_switch_of "XYZ" start_charging stop_charging)
                   (hass_with three_cars) start_charging _ _) _);
    [read_vins | reflexivity | reflexivity].
Defined.

(** X8: when a record whose identifier cannot be read comes before any
    record with the switch's identifier, a transition raises the
    exception of that read after its remote call has returned: the call
    is made, the snapshot is as it was and no state is written. *)
Theorem transition_unreadable_record (self : Switch.TessieSwitch)
    (hass : Switch.Hass) (func : Switch.RemoteFunc)
    (pre : list value) (car : value) (post : list value) (e : exn) :
  Switch.func_outcome func (Switch._session self) (Switch._vin self)
    (Switch._apiKey self) = Ok () →
  data_results (Switch.coordinator hass) = pre ++ car :: post →
  Forall (fun c => has_other_vin c (Switch._vin self)) pre →
  unreadable_vin car e →
  let failed :=
    (Raise e,
     {| Switch.coordinator := Switch.coordinator hass;
        Switch.events :=
          Switch.events hass ++
          [Switch.Awaited (Switch.func_name func) (Switch._session self)
             (Switch._vin self) (Switch._apiKey self)] |}) in
  (Switch.enabled_func (Switch._description self) = Some func →
   Switch.async_turn_on self hass = failed) ∧
  (Switch.disabled_func (Switch._description self) = Some func →
   Switch.async_turn_off self hass = failed).
Proof.
  intros Hfunc Hcars Hpre Hcar. simpl.
  unfold Switch.async_turn_on, Switch.async_turn_off.
  split; intros ->;
    unfold mbind, Switch.task_bind, Switch.await, Switch.on_results,
      Switch.async_write_ha_state;
    rewrite Hfunc; simpl; rewrite Hcars;
    by rewrite (set_in_vehicles_unreadable _ _ _ _ _ _ _ Hpre Hcar).
Qed.

Lemma transition_unreadable_record_witness :
  Switch.async_turn_on (charging_switch_of "ABC" start_charging stop_charging)
    (hass_with [VDict other_car_fields; anonymous_record; scenario_record]) =
  (Raise KeyError,
   {| Switch.coordinator :=
        {| data_results :=
             [VDict other_car_fields; anonymous_record; scenario_record] |};
      Switch.events := [Switch.Awaited "start_charging" 1 "ABC" "token"] |}).
Proof.
  refine (proj1 (transition_unreadable_record
                   (charging_switch_of "ABC" start_charging stop_charging)
                   (hass_with [VDict other_car_fields; anonymous_record;
                               scenario_record])
                   start_charging [VDict other_car_fields] anonymous_record
                   [scenario_record] KeyError _ _ _ _) _);
    [reflexivity | reflexivity | read_vins | | reflexivity].
  right. eexists. split_and!; reflexivity.
Defined.

(** X9: a transition with an action configured makes exactly one remote
    call, writes the state exactly when it returns, and leaves the
    snapshot as it was whenever it raises, whatever the snapshot holds. *)
Theorem transition_events (self : Switch.TessieSwitch) (hass : Switch.Hass)
    (func : Switch.RemoteFunc) :
  let after (result : result () * Switch.Hass) :=
    Switch.events result.2 =
      Switch.events hass ++
      Switch.Awaited (Switch.func_name func) (Switch._session self)
        (Switch._vin self) (Switch._apiKey self) ::
      match result.1 with
      | Ok _ => [Switch.WroteHaState]
      | Raise _ => []
      end ∧
    (∀ e, result.1 = Raise e →
          Switch.coordinator result.2 = Switch.coordinator hass) in
  (Switch.enabled_func (Switch._description self) = Some func →
   after (Switch.async_turn_on self hass)) ∧
  (Switch.disabled_func (Switch._description self) = Some func →
   after (Switch.async_turn_off self hass)).
Proof.
  simpl. unfold Switch.async_turn_on, Switch.async_turn_off.
  split; intros ->;
    unfold mbind, Switch.task_bind, Switch.await, Switch.on_results,
      Switch.async_write_ha_state;
    destruct (Switch.func_outcome func _ _ _); simpl; try done;
    destruct (Switch.set_in_vehicles _ _ _ _); simpl; try done;
    by rewrite <- app_assoc.
Qed.

Lemma transition_events_witness :
  Switch.events
    (Switch.async_turn_off
       (charging_switch_of "ABC" start_charging (failing "stop_charging"))
       (hass_with three_cars)).2 =
  [Switch.Awaited "stop_charging" 1 "ABC" "token"].
Proof.
  refine (proj1 (proj2 (transition_events
                          (charging_switch_of "ABC" start_charging
                             (failing "stop_charging"))
                          (hass_with three_cars) (failing "stop_charging"))
                   _)).
  reflexivity.
Defined.

(** X10: when the path can be set in the first record with the switch's
    identifier and does not start at the identifier field, the switch is
    on after a turn-on whose remote call returned, and after such a
    turn-off it is on exactly when the "off" value is the "on" value. *)
Theorem turn_on_then_is_on (self : Switch.TessieSwitch) (hass : Switch.Hass)
    (pre : list value) (car : value) (post : list value) :
  let description := Switch._description self in
  let returns func :=
    Switch.func_outcome func (Switch._session self) (Switch._vin self)
      (Switch._apiKey self) = Ok () in
  data_results (Switch.coordinator hass) = pre ++ car :: post →
  Forall (fun c => has_other_vin c (Switch._vin self)) pre →
  has_vin car (Switch._vin self) →
  first_key (Switch.key description) ≠ Some "vin" →
  settable car (split dot (Switch.key description)) →
  (∀ func,
     Switch.enabled_func description = Some func →
     returns func →
     (Switch.async_turn_on self hass).1 = Ok () ∧
     Switch.is_on self (Switch.async_turn_on self hass).2 = Ok true) ∧
  (∀ func,
     Switch.disabled_func description = Some func →
     returns func →
     (Switch.async_turn_off self hass).1 = Ok () ∧
     Switch.is_on self (Switch.async_turn_off self hass).2 =
       Ok (bool_decide (Switch.disabled_value description =
                        Switch.enabled_value description))).
Proof.
  simpl. intros Hcars Hpre Hcar Hkey Hset. split; intros func Hdesc Hfunc.
  - unfold Switch.async_turn_on. rewrite Hdesc.
    rewrite (transition_returns _ _ _ _ _ _ _ Hfunc Hcars Hpre Hcar).
    pose proof (is_on_after_transition self hass func
      (Switch.enabled_value (Switch._description self)) pre car post
      Hfunc Hcars Hpre Hcar Hkey Hset) as Hon.
    destruct (transition_outcome _ _ _ _ _ _ _) as [outcome hass'].
    by rewrite bool_decide_eq_true_2 in Hon.
  - unfold Switch.async_turn_off. rewrite Hdesc.
    rewrite (transition_returns _ _ _ _ _ _ _ Hfunc Hcars Hpre Hcar).
    pose proof (is_on_after_transition self hass func
      (Switch.disabled_value (Switch._description self)) pre car post
      Hfunc Hcars Hpre Hcar Hkey Hset) as Hon.
    by destruct (transition_outcome _ _ _ _ _ _ _) as [outcome hass'].
Qed.

Lemma turn_on_then_is_on_witness :
  let self := charging_switch_of "ABC" start_charging stop_charging in
  (Switch.async_turn_off self (hass_with three_cars)).1 = Ok () ∧
  Switch.is_on self (Switch.async_turn_off self (hass_with three_cars)).2
    = Ok false.
Proof.
  refine (proj2 (turn_on_then_is_on
                   (charging_switch_of "ABC" start_charging stop_charging)
                   (hass_with three_cars) [VDict other_car_fields]
                   scenario_record [VDict third_car_fields] _ _ _ _ _)
            stop_charging _ _);
    [reflexivity | read_vins | read_vin | discriminate | follow_path
    | reflexivity | reflexivity].
Defined.

(** X11: a switch whose description leaves the "on" value unset is on
    when a segment of its path is missing from the located record: the
    absent value compares equal to the unset one. *)
Theorem is_on_without_on_value (self : Switch.TessieSwitch)
    (hass : Switch.Hass) (car : value) :
  Switch.enabled_value (Switch._description self) = None →
  Switch.getCarByVin (Switch.coordinator hass) (Switch._vin self) = Ok car →
  missing_segment car (split dot (Switch.key (Switch._description self))) →
  Switch.is_on self hass = Ok true.
Proof.
  intros Hon Hcar Hmiss. rewrite (is_on_located _ _ _ Hcar).
  unfold Switch.traverse_nested_dict. simpl.
  rewrite traverse_keys_missing by done. by rewrite Hon.
Qed.

Lemma is_on_without_on_value_witness :
  Switch.is_on
    {| Switch._description :=
         {| Switch.key := "last_state.climate_state.is_climate_on";
            Switch.enabled_func := None;
            Switch.enabled_value := None;
            Switch.disabled_func := None;
            Switch.disabled_value := None |};
       Switch._session := 1;
       Switch._apiKey := "token";
       Switch._vin := "ABC" |}
    (hass_with three_cars) = Ok true.
Proof.
  apply (is_on_without_on_value _ (hass_with three_cars) scenario_record);
    [reflexivity | reflexivity | follow_path].
Defined.

(** X12: the unique id of a switch is told by the key of its description
    alone: two switches have the same unique id exactly when their
    descriptions have the same key, whatever their vehicles are. *)
Theorem unique_id_by_description (a b : SwitchSetup.TessieSwitch) :
  SwitchSetup.unique_id a = SwitchSetup.unique_id b ↔
  Switch.key (SwitchSetup._description a) =
  Switch.key (SwitchSetup._description b).
Proof.
  unfold SwitchSetup.unique_id. split; [apply append_inj_r | by intros ->].
Qed.

Lemma unique_id_by_description_witness :
  SwitchSetup.unique_id (garage_switch "ABC" "Ada") =
  SwitchSetup.unique_id (garage_switch "DEF" "Bob").
Proof.
  apply (proj2 (unique_id_by_description (garage_switch "ABC" "Ada")
                  (garage_switch "DEF" "Bob"))).
  reflexivity.
Defined.

(** X13: the sensor set-up returns exactly when every record of the
    snapshot holds a display name, a car type under its vehicle
    configuration, and an identifier; it then hands over one entity per
    record, in the order of the records, each with the name, the model
    and the identifier of its record and the display-name path. *)
Theorem sensor_setup_entities (coordinator : TessieDataUpdateCoordinator) :
  (Forall registrable_car (data_results coordinator) ↔
   ∃ entities, SensorSetup.async_setup_entry coordinator = Ok entities) ∧
  (∀ entities,
     SensorSetup.async_setup_entry coordinator = Ok entities →
     Forall2 (fun car entity =>
       registrable car (SensorSetup.name entity) (SensorSetup.model entity)
         (SensorSetup.vin entity) ∧
       SensorSetup.key (SensorSetup.entity_description entity)
         = "last_state.display_name")
       (data_results coordinator) entities).
Proof.
  rewrite sensor_setup_for_cars. split_and!.
  - split.
    + intros Hcars.
      destruct (SensorSetup.for_cars _ _) as [entities|e] eqn:Hsetup;
        [by eexists |].
      by apply sensor_for_cars_raises in Hsetup.
    + intros [entities Hsetup%sensor_for_cars_ok].
      induction Hsetup as [|car entity cars entities [Hcar _] _ IH];
        [done |].
      apply Forall_cons_2; [|done]. by eexists _, _, _.
  - intros entities Hsetup%sensor_for_cars_ok.
    eapply Forall2_impl; [done |]. by intros car entity [Hcar ->].
Qed.

Lemma sensor_setup_entities_witness :
  Forall2 (fun car entity =>
    registrable car (SensorSetup.name entity) (SensorSetup.model entity)
      (SensorSetup.vin entity) ∧
    SensorSetup.key (SensorSetup.entity_description entity)
      = "last_state.display_name")
    garage [garage_sensor "ABC" "Ada"; garage_sensor "DEF" "Bob"].
Proof.
  apply (proj2 (sensor_setup_entities {| data_results := garage |})
           [garage_sensor "ABC" "Ada"; garage_sensor "DEF" "Bob"]).
  reflexivity.
Defined.

(** X14: on the snapshot it was set up from, a sensor whose identifier is
    a string returns from its value query, with the display name of the
    record the locator finds for the identifier: its own name when no
    earlier record has its identifier. *)
Theorem sensor_setup_then_native_value
    (coordinator : TessieDataUpdateCoordinator)
    (entities : list SensorSetup.TessieCarSensor) (i : nat)
    (entity : SensorSetup.TessieCarSensor) (vin : string) :
  SensorSetup.async_setup_entry coordinator = Ok entities →
  entities !! i = Some entity →
  SensorSetup.vin entity = VStr vin →
  (∃ car name model,
     car ∈ data_results coordinator ∧
     registrable car name model (VStr vin) ∧
     Sensor.getCarByVin coordinator vin = Ok car ∧
     Sensor.native_value (SensorSetup.queried entity vin) coordinator
       = Ok name) ∧
  (Forall (fun c => ¬ has_vin c vin) (take i (data_results coordinator)) →
   Sensor.native_value (SensorSetup.queried entity vin) coordinator
     = Ok (SensorSetup.name entity)).
Proof.
  rewrite sensor_setup_for_cars.
  intros Hsetup%sensor_for_cars_ok Hentity Hvin.
  assert (Forall registrable_car (data_results coordinator)) as Hcars.
  { clear Hentity. induction Hsetup as [|? ? ? ? [Hcar _] _ IH]; [done |].
    apply Forall_cons_2; [|done]. by eexists _, _, _. }
  destruct (Forall2_lookup_r _ _ _ _ _ Hsetup Hentity)
    as (car & Hcar & Hreg & Hdesc).
  rewrite Hvin in Hreg.
  assert (has_vin car vin) as Hhas.
  { destruct Hreg as (m & ls & vc & -> & _ & _ & _ & _ & Hid). by exists m. }
  assert (∀ car' name, has_vin car' vin →
            Switch.find_car (data_results coordinator) vin = Ok car' →
            (∃ model, registrable car' name model (VStr vin)) →
            Sensor.native_value (SensorSetup.queried entity vin) coordinator
              = Ok name) as Hvalue.
  { intros car' name Hhas' Hfind [model Hreg'].
    unfold Sensor.native_value, Sensor.getCarByVin.
    change Sensor.find_car with Switch.find_car.
    change Sensor.traverse_nested_dict with Switch.traverse_nested_dict.
    simpl Sensor.vin. rewrite Hfind. simpl Sensor.description_key.
    rewrite Hdesc. by eapply registrable_display_name. }
  split.
  - destruct (find_car_occurs (data_results coordinator) vin)
      as (car' & Hfind & Hhas' & Hin).
    + eapply Forall_impl; [done |]. apply registrable_carries_vin.
    + apply Exists_exists. exists car. split; [|done].
      by eapply list_elem_of_lookup_2.
    + pose proof (proj1 (Forall_forall _ _) Hcars car' Hin)
        as (name & model & id & Hreg').
      assert (id = VStr vin) as ->.
      { destruct Hreg' as (m & ls & vc & -> & _ & _ & _ & _ & Hid).
        destruct Hhas' as (m' & [= <-] & Hid'). congruence. }
      exists car', name, model. split_and!; [done.. | |].
      * unfold Sensor.getCarByVin. by rewrite sensor_find_car.
      * apply (Hvalue car'); [done.. | by exists model].
  - intros Hfirst. apply (Hvalue car); [done | | by eexists].
    rewrite <- (take_drop_middle _ _ _ Hcar).
    apply find_car_first; [|done]. apply Forall_other_vin; [|done].
    apply Forall_take. eapply Forall_impl; [done |].
    apply registrable_carries_vin.
Qed.

Lemma sensor_setup_then_native_value_witness :
  Sensor.native_value
    (SensorSetup.queried (garage_sensor "DEF" "Bob") "DEF")
    {| data_results := garage |} = Ok (VStr "Bob").
Proof.
  refine (proj2 (sensor_setup_then_native_value {| data_results := garage |}
                   [garage_sensor "ABC" "Ada"; garage_sensor "DEF" "Bob"] 1
                   (garage_sensor "DEF" "Bob") "DEF" _ _ _) _);
    [reflexivity | reflexivity | reflexivity | read_vins].
Defined.

(** X15: the switch set-up returns exactly when every record of the
    snapshot holds a display name, a car type under its vehicle
    configuration, and an identifier; it then hands over one switch per
    record, in the order of the records, each with the name, the model
    and the identifier of its record, the charging description, the
    session and the credential; and all these switches have the same
    unique id. *)
Theorem switch_setup_switches (start_charging stop_charging : Switch.RemoteFunc)
    (session : Switch.ClientSession) (apiKey : string)
    (coordinator : TessieDataUpdateCoordinator) :
  let setup :=
    SwitchSetup.async_setup_entry start_charging stop_charging session apiKey
      coordinator in
  (Forall registrable_car (data_results coordinator) ↔
   ∃ switches, setup = Ok switches) ∧
  (∀ switches,
     setup = Ok switches →
     Forall2 (fun car switch =>
       registrable car (SwitchSetup._name switch) (SwitchSetup._model switch)
         (SwitchSetup._vin switch) ∧
       SwitchSetup._description switch =
         Switch.charging_switch start_charging stop_charging ∧
       SwitchSetup._session switch = session ∧
       SwitchSetup._apiKey switch = apiKey)
       (data_results coordinator) switches ∧
     ∀ a b, a ∈ switches → b ∈ switches →
       SwitchSetup.unique_id a = SwitchSetup.unique_id b).
Proof.
  simpl. rewrite switch_setup_for_cars. split.
  - split.
    + intros Hcars.
      destruct (SwitchSetup.for_cars _ _ _ _) as [switches|e] eqn:Hsetup;
        [by eexists |].
      by apply switch_for_cars_raises in Hsetup.
    + intros [switches Hsetup%switch_for_cars_ok].
      induction Hsetup as [|car switch cars switches Hcar _ IH]; [done |].
      apply Forall_cons_2; [|done].
      apply switch_create_ok in Hcar as [Hcar _]. by eexists _, _, _.
  - intros switches Hsetup%switch_for_cars_ok.
    assert (Forall2 (fun car switch =>
      registrable car (SwitchSetup._name switch) (SwitchSetup._model switch)
        (SwitchSetup._vin switch) ∧
      SwitchSetup._description switch =
        Switch.charging_switch start_charging stop_charging ∧
      SwitchSetup._session switch = session ∧
      SwitchSetup._apiKey switch = apiKey)
      (data_results coordinator) switches) as Hall.
    { eapply Forall2_impl; [done |]. simpl.
      by intros car switch (? & ? & ? & ? & _)%switch_create_ok. }
    split; [done |]. intros a b Ha Hb.
    apply list_elem_of_lookup in Ha as [i Ha], Hb as [j Hb].
    destruct (Forall2_lookup_r _ _ _ _ _ Hall Ha) as (? & _ & _ & Hda & _).
    destruct (Forall2_lookup_r _ _ _ _ _ Hall Hb) as (? & _ & _ & Hdb & _).
    apply same_key_same_unique_id. by rewrite Hda, Hdb.
Qed.

Lemma switch_setup_switches_witness :
  SwitchSetup.unique_id (garage_switch "DEF" "Bob") =
  SwitchSetup.unique_id (garage_switch "ABC" "Ada").
Proof.
  refine (proj2 (proj2 (switch_setup_switches start_charging stop_charging 1
                          "token" {| data_results := garage |})
                   [garage_switch "ABC" "Ada"; garage_switch "DEF" "Bob"] _)
            (garage_switch "DEF" "Bob") (garage_switch "ABC" "Ada") _ _);
    [reflexivity | |].
  - apply list_elem_of_further, list_elem_of_here.
  - apply list_elem_of_here.
Defined.

(** X16: on the snapshot it was set up from, a switch whose identifier is
    a string finds a record with its identifier, and its state query
    raises only if the path runs, in that record, into a value that is
    neither null nor a map before its final segment. *)
Theorem switch_setup_then_is_on (start_charging stop_charging : Switch.RemoteFunc)
    (session : Switch.ClientSession) (apiKey : string) (hass : Switch.Hass)
    (switches : list SwitchSetup.TessieSwitch) (i : nat)
    (switch : SwitchSetup.TessieSwitch) (vin : string) :
  SwitchSetup.async_setup_entry start_charging stop_charging session apiKey
    (Switch.coordinator hass) = Ok switches →
  switches !! i = Some switch →
  SwitchSetup._vin switch = VStr vin →
  ∃ car,
    car ∈ data_results (Switch.coordinator hass) ∧
    has_vin car vin ∧
    Switch.getCarByVin (Switch.coordinator hass) vin = Ok car ∧
    ∀ e, Switch.is_on (SwitchSetup.operated switch vin) hass = Raise e →
         e = AttributeError ∧
         reaches non_null_leaf car
           (split dot "last_state.charge_state.charging_state").
Proof.
  rewrite switch_setup_for_cars.
  intros Hsetup%switch_for_cars_ok Hswitch Hvin.
  assert (Forall registrable_car (data_results (Switch.coordinator hass)))
    as Hcars.
  { clear Hswitch. induction Hsetup as [|? ? ? ? Hcar _ IH]; [done |].
    apply Forall_cons_2; [|done].
    apply switch_create_ok in Hcar as [Hcar _]. by eexists _, _, _. }
  destruct (Forall2_lookup_r _ _ _ _ _ Hsetup Hswitch) as (own & Hown & Hc).
  apply switch_create_ok in Hc as (Hreg & Hdesc & _). rewrite Hvin in Hreg.
  destruct (find_car_occurs (data_results (Switch.coordinator hass)) vin)
    as (car & Hfind & Hhas & Hin).
  { eapply Forall_impl; [done |]. apply registrable_carries_vin. }
  { apply Exists_exists. exists own. split; [by eapply list_elem_of_lookup_2 |].
    destruct Hreg as (m & ls & vc & -> & _ & _ & _ & _ & Hid). by exists m. }
  exists car. split_and!; [done.. |]. intros e.
  rewrite (is_on_located _ _ car) by done.
  change (Switch._description (SwitchSetup.operated switch vin))
    with (SwitchSetup._description switch).
  rewrite Hdesc.
  change (Switch.key (Switch.charging_switch start_charging stop_charging))
    with "last_state.charge_state.charging_state".
  destruct (Switch.traverse_nested_dict car
              "last_state.charge_state.charging_state")
    as [value|e'] eqn:Hvalue; [done |].
  intros [= ->].
  apply traverse_nested_dict_raises in Hvalue as [-> [->|Hreach]]; [|done].
  by destruct Hhas as (m & ? & _).
Qed.

Lemma switch_setup_then_is_on_witness :
  ∃ car,
    car ∈ garage ∧
    has_vin car "DEF" ∧
    Switch.getCarByVin {| data_results := garage |} "DEF" = Ok car ∧
    ∀ e, Switch.is_on (SwitchSetup.operated (garage_switch "DEF" "Bob") "DEF")
           (hass_with garage) = Raise e →
         e = AttributeError ∧
         reaches non_null_leaf car
           (split dot "last_state.charge_state.charging_state").
Proof.
  apply (switch_setup_then_is_on start_charging stop_charging 1 "token"
           (hass_with garage)
           [garage_switch "ABC" "Ada"; garage_switch "DEF" "Bob"] 1
           (garage_switch "DEF" "Bob") "DEF");
    reflexivity.
Defined.


(** ** What the mutator leaves in the record *)

Section set_path_result.

Implicit Types (m : gmap string value) (v : value) (init : list string).

Lemma lookup_path_dict m key keys :
  lookup_path (VDict m) (key :: keys) =
    child ← m !! key; lookup_path child keys.
Proof. done. Qed.

Lemma lookup_path_empty key keys : lookup_path (VDict ∅) (key :: keys) = None.
Proof. by rewrite lookup_path_dict, lookup_empty. Qed.

Lemma set_along_off_path R init final v R' pre k1 r1 k2 r2 :
  Switch.set_along R init final v = Ok R' →
  init ++ [final] = pre ++ k1 :: r1 →
  k1 ≠ k2 →
  lookup_path R' (pre ++ k2 :: r2) = lookup_path R (pre ++ k2 :: r2).
Proof.
  revert R R' init. induction pre as [|k pre IH]; intros R R' init Hok Hkeys Hne.
  - destruct (set_along_ok_dict _ _ _ _ _ Hok) as [HR _].
    destruct R as [| | | | | |m]; try done. simpl in Hkeys.
    assert (∃ x, R' = VDict (<[k1 := x]> m)) as [x ->].
    { destruct init as [|key init]; simplify_eq/=; [by eexists |].
      destruct (Switch.set_along _ init final v); simplify_eq/=.
      by eexists. }
    simpl app. rewrite !lookup_path_dict. by rewrite lookup_insert_ne.
  - destruct init as [|key init].
    { simplify_eq/=. by destruct pre. }
    simpl in Hkeys. injection Hkeys as -> Hkeys.
    destruct (set_along_ok_dict _ _ _ _ _ Hok) as [HR _].
    destruct R as [| | | | | |m]; try done.
    rewrite set_along_dict in Hok.
    destruct (Switch.set_along (default (VDict ∅) (m !! k)) init final v)
      as [child'|] eqn:Hchild; [|done].
    injection Hok as <-.
    rewrite <- !app_comm_cons, !lookup_path_dict, lookup_insert_eq.
    simpl. rewrite (IH _ _ _ Hchild Hkeys Hne).
    destruct (m !! k) as [child|]; simpl; [done |].
    destruct pre; apply lookup_path_empty.
Qed.

Lemma set_along_creates R init0 final0 v R' pre m key init final :
  Switch.set_along R init0 final0 v = Ok R' →
  init0 ++ [final0] = pre ++ key :: init ++ [final] →
  lookup_path R pre = Some (VDict m) →
  m !! key = None →
  lookup_path R' (pre ++ [key]) = Some (nest init final v).
Proof.
  revert R R' init0. induction pre as [|k pre IH];
    intros R R' init0 Hok Hkeys Hpre Hkey.
  - injection Hpre as ->. simpl in Hkeys.
    change (key :: init ++ [final]) with ((key :: init) ++ [final]) in Hkeys.
    apply app_inj_tail in Hkeys as [-> ->].
    rewrite set_along_dict, Hkey in Hok. simpl in Hok.
    rewrite set_along_empty in Hok. injection Hok as <-.
    simpl. by rewrite lookup_insert_eq.
  - destruct init0 as [|key0 init0].
    { simplify_eq/=. by destruct pre. }
    simpl in Hkeys. injection Hkeys as -> Hkeys.
    destruct (set_along_ok_dict _ _ _ _ _ Hok) as [HR _].
    destruct R as [| | | | | |m0]; try done.
    rewrite lookup_path_dict in Hpre.
    destruct (m0 !! k) as [child|] eqn:Hk; [|done]. simpl in Hpre.
    rewrite set_along_dict, Hk in Hok. simpl in Hok.
    destruct (Switch.set_along child init0 final0 v) as [child'|] eqn:Hchild;
      [|done].
    injection Hok as <-.
    rewrite <- app_comm_cons, lookup_path_dict, lookup_insert_eq. simpl.
    by eapply IH.
Qed.

(** The record the mutator leaves when it returns. *)
Lemma set_nested_dict_value_result R P v R' :
  Switch.set_nested_dict_value R P v = Ok R' →
  resolves R' (split dot P) v ∧
  creates_missing R R' (split dot P) v ∧
  unchanged_off_path R R' (split dot P).
Proof.
  destruct (split_snoc dot P) as (init & final & Hkeys & _).
  rewrite (set_nested_dict_value_keys _ _ _ _ _ Hkeys), Hkeys. intros Hok.
  split_and!.
  - pose proof (set_along_returns _ _ _ _ _ Hok) as Hset.
    destruct (set_along_settable _ _ _ v Hset) as (R'' & Hok' & Hres).
    by assert (R'' = R') as -> by congruence.
  - intros pre m key init' final' Hpath Hpre Hkey.
    by eapply set_along_creates.
  - intros pre k1 r1 k2 r2 Hpath Hne. by eapply set_along_off_path.
Qed.


End set_path_result.

(** C9, as the code has it: when every intermediate segment of the path
    is either missing or leads to a map of the record, the path mutator
    returns the record with the leaf at the path holding the value, every
    intermediate segment being a map; where an intermediate segment was
    missing, the map created for it holds the rest of the path and
    nothing else; what the record held off the path it still holds; and
    path ["a.b.c"] with value 5 on the empty record gives
    [{"a": {"b": {"c": 5}}}]. *)
Theorem set_nested_dict_value_sets (R : value) (P : string) (V : value) :
  settable R (split dot P) →
  (∃ R', Switch.set_nested_dict_value R P V = Ok R' ∧
         resolves R' (split dot P) V ∧
         creates_missing R R' (split dot P) V ∧
         unchanged_off_path R R' (split dot P)) ∧
  Switch.set_nested_dict_value (VDict ∅) "a.b.c" (VInt 5)
    = Ok (VDict {[ "a" := VDict {[ "b" := VDict {[ "c" := VInt 5 ]} ]} ]}).
Proof.
  intros Hset. split; [|done].
  apply (set_nested_dict_value_returns _ _ V) in Hset as [R' Hok].
  exists R'. split; [done |]. by apply set_nested_dict_value_result.
Qed.

Lemma set_nested_dict_value_sets_witness :
  ∃ R', Switch.set_nested_dict_value scenario_record
          "last_state.climate_state.is_climate_on" (VBool true) = Ok R' ∧
        resolves R' (split dot "last_state.climate_state.is_climate_on")
          (VBool true) ∧
        lookup_path R' ["last_state"; "climate_state"]
          = Some (VDict {[ "is_climate_on" := VBool true ]}) ∧
        lookup_path R' ["last_state"; "charge_state"; "charging_state"]
          = Some (VStr "Stopped").
Proof.
  destruct (proj1 (set_nested_dict_value_sets scenario_record
                     "last_state.climate_state.is_climate_on" (VBool true)
                     ltac:(follow_path)))
    as (R' & Hok & Hres & Hcreates & Hframe).
  exists R'. split_and!; [done | done | |].
  - exact (Hcreates ["last_state"] _ "climate_state" [] "is_climate_on"
             eq_refl eq_refl eq_refl).
  - exact (Hframe ["last_state"] "climate_state" ["is_climate_on"]
             "charge_state" ["charging_state"] eq_refl ltac:(discriminate)).
Defined.

(** ** The transitions, with what they leave in the record *)

Section transitions.

Import Switch.
Implicit Types (self : TessieSwitch) (hass : Hass) (car : value)
  (pre post : list value).


End transitions.



